(** * Prewitt edge detection: a shallow embedding of [prewitt_operator]

    The notebook [Prewitt_Edge_Detector.ipynb] defines one function,

<<
    def prewitt_operator(img, threshold=40, smooth=True)
>>

    which allocates a zero image of the shape of [img], optionally rebinds
    [img] to a Gaussian-blurred copy, and fills every interior cell of the
    zero image with the thresholded gradient magnitude.

    Modelling choices.
    - A 2-D array is a list of rows; an array object lives in a store
      ([heap]) and is named by a location, so that the NumPy assignment
      [edge_img[i, j] = G_mag] is an update of the store and the aliasing
      between [img] and [edge_img] is a property that is proved, not assumed.
    - Samples, the threshold and the magnitude are real numbers: NumPy's
      scalar arithmetic is read in exact arithmetic and [np.sqrt] as the real
      square root. The sums are exact on integer samples, which is what a
      decoded 8-bit image holds (NumPy promotes the products to [int64]). On
      binary64 samples NumPy rounds every product and every sum: module
      [B64] is the same loop in binary64, and statements that rest on an
      exact cancellation are made for integer samples.
    - Indexing outside an array raises [IndexError], as NumPy does.
    - [cv2.GaussianBlur] is an external library call; it is a parameter of
      the development. *)

From Stdlib Require Import Reals Lra.
From Stdlib Require PrimFloat.
From Stdlib Require Uint63.
From stdpp Require Import gmap list.

Local Open Scope R_scope.

(** ** Arrays *)

(** A 2-D [ndarray] of samples, row-major. *)
Abbreviation image := (list (list R)).

(** [np.zeros((rows, cols))] as a value. *)
Definition zeros (rows cols : nat) : image := replicate rows (replicate cols 0).

(** The two components of [img.shape]. A list of rows carries no column count
    when it has no row; the count is then 0. *)
Definition nrows (a : image) : nat := length a.
Definition ncols (a : image) : nat :=
  match a with
  | [] => 0%nat
  | row :: _ => length row
  end.

(** NumPy arrays are rectangular: every row has [ncols] samples. *)
Definition rectangular (a : image) : Prop :=
  Forall (λ row, length row = ncols a) a.

(** [a] has [r] rows of [c] samples each. *)
Definition has_shape (a : image) (r c : nat) : Prop :=
  length a = r ∧ Forall (λ row, length row = c) a.

(** [a[i, j]] for non-negative indices; [None] is an index out of bounds. *)
Definition at2 (a : image) (i j : nat) : option R :=
  row ← a !! i; row !! j.

(** [a[i, j] = v] on the value of the array; [None] is an index out of
    bounds. *)
Definition set2 (a : image) (i j : nat) (v : R) : option image :=
  match a !! i with
  | Some row =>
      if decide (j < length row)%nat then Some (<[i := <[j := v]> row]> a)
      else None
  | None => None
  end.

(** ** The store and the monad of Python statements *)

Abbreviation loc := positive.
Abbreviation heap := (gmap loc image).

Inductive exn : Set :=
  | IndexError   (* index out of bounds *)
  | NameError.   (* a location that holds no array *)

Inductive result (A : Type) : Type :=
  | Ok (a : A)
  | Raise (e : exn).
Arguments Ok {A} a.
Arguments Raise {A} e.

Definition M (A : Type) : Type := heap → result (A * heap).

Definition ret {A} (a : A) : M A := λ h, Ok (a, h).

Definition bind {A B} (m : M A) (k : A → M B) : M B := λ h,
  match m h with
  | Ok (a, h') => k a h'
  | Raise e => Raise e
  end.

Definition raise {A} (e : exn) : M A := λ _, Raise e.

Declare Scope py_scope.
Delimit Scope py_scope with py.
Notation "x <- m ;; k" := (bind m (λ x, k))
  (at level 100, m at next level, right associativity) : py_scope.
Notation "m ;;; k" := (bind m (λ _, k))
  (at level 100, right associativity) : py_scope.
Local Open Scope py_scope.

(** A value or [IndexError]. *)
Definition index {A} (o : option A) : M A :=
  match o with
  | Some a => ret a
  | None => raise IndexError
  end.

(** The array object a name refers to. *)
Definition load (l : loc) : M image := λ h,
  match h !! l with
  | Some a => Ok (a, h)
  | None => Raise NameError
  end.

(** A new array object. *)
Definition alloc (a : image) : M loc := λ h,
  let l := fresh (dom h) in Ok (l, <[l := a]> h).

(** [np.zeros((rows, cols))]. *)
Definition np_zeros (rows cols : nat) : M loc := alloc (zeros rows cols).

(** [arr.shape] unpacked into two names. *)
Definition shape (arr : loc) : M (nat * nat) :=
  a <- load arr ;; ret (nrows a, ncols a).

(** [arr[i, j] = v]. *)
Definition setitem (arr : loc) (i j : nat) (v : R) : M unit :=
  a <- load arr ;;
  a' <- index (set2 a i j v) ;;
  λ h, Ok (tt, <[arr := a']> h).

(** [for x in xs: body]. *)
Fixpoint for_ {A} (xs : list A) (body : A → M unit) : M unit :=
  match xs with
  | [] => ret tt
  | x :: xs' => body x ;;; for_ xs' body
  end.

(** [range(a, b)] for [0 <= a]: the numbers [a <= k < b], none when
    [b <= a]. The bound [rows - 1] of the source is -1 for an array without
    rows; the truncated subtraction makes it 0, and both give the empty
    range from 1. *)
Definition range (a b : nat) : list nat := seq a (b - a).

(** ** The kernels *)

(** [prewitt_x] and [prewitt_y]: constant integer arrays, read only. *)
Definition prewitt_x : list (list Z) :=
  [[ 1;  0; -1];
   [ 1;  0; -1];
   [ 1;  0; -1]]%Z.

Definition prewitt_y : list (list Z) :=
  [[ 1;  1;  1];
   [ 0;  0;  0];
   [-1; -1; -1]]%Z.

(** [K[u, v]] as a real factor. *)
Definition kern (K : list (list Z)) (u v : nat) : R :=
  IZR ((K !!! u) !!! v).

(** ** The body of the pixel loop *)

(** The nine products of the source, in the order it writes them: the kernel
    entry [K[u, v]] multiplies [img[i-1+v, j-1+u]]. *)
Definition G (K : list (list Z)) (img : image) (i j : nat) : option R :=
  p00 ← at2 img (i - 1) (j - 1); p01 ← at2 img i (j - 1); p02 ← at2 img (i + 1) (j - 1);
  p10 ← at2 img (i - 1) j;       p11 ← at2 img i j;       p12 ← at2 img (i + 1) j;
  p20 ← at2 img (i - 1) (j + 1); p21 ← at2 img i (j + 1); p22 ← at2 img (i + 1) (j + 1);
  Some ( (p00 * kern K 0 0) + (p01 * kern K 0 1) + (p02 * kern K 0 2)
       + (p10 * kern K 1 0) + (p11 * kern K 1 1) + (p12 * kern K 1 2)
       + (p20 * kern K 2 0) + (p21 * kern K 2 1) + (p22 * kern K 2 2) ).

Definition G_x (img : image) (i j : nat) : option R := G prewitt_x img i j.
Definition G_y (img : image) (i j : nat) : option R := G prewitt_y img i j.

(** [np.sqrt(G_x ** 2 + G_y ** 2)]. *)
Definition G_mag (gx gy : R) : R := sqrt (gx ^ 2 + gy ^ 2).

(** [if G_mag < threshold: G_mag = 0], as a function of the magnitude. *)
Definition suppress (threshold g : R) : R :=
  if Rlt_dec g threshold then 0 else g.

(** ** The pixel loop in binary64 *)

(** The function on an array of [float64] samples, every product, sum and
    square root rounded as IEEE 754 binary64 rounds it. The array is a value
    here and the output array is passed from one iteration to the next;
    [None] is an index out of bounds. The kernel entries are integers that
    NumPy converts to binary64 before the product, and [x ** 2] is read as
    the rounded product [x * x]. *)
Module B64.
Import PrimFloat.
Local Open Scope float_scope.

Abbreviation image := (list (list float)).

Definition of_Z (z : Z) : float :=
  match z with
  | Z0 => 0
  | Zpos p => of_uint63 (Uint63.of_Z (Zpos p))
  | Zneg p => - of_uint63 (Uint63.of_Z (Zpos p))
  end.

Definition zeros (rows cols : nat) : image := replicate rows (replicate cols 0).

Definition nrows (a : image) : nat := length a.
Definition ncols (a : image) : nat :=
  match a with
  | [] => 0%nat
  | row :: _ => length row
  end.

Definition at2 (a : image) (i j : nat) : option float :=
  row ← a !! i; row !! j.

Definition set2 (a : image) (i j : nat) (v : float) : option image :=
  match a !! i with
  | Some row =>
      if decide (j < length row)%nat then Some (<[i := <[j := v]> row]> a)
      else None
  | None => None
  end.

Definition kern (K : list (list Z)) (u v : nat) : float :=
  of_Z ((K !!! u) !!! v).

(** The nine products, added from left to right as Python adds them. *)
Definition G (K : list (list Z)) (img : image) (i j : nat) : option float :=
  p00 ← at2 img (i - 1) (j - 1); p01 ← at2 img i (j - 1); p02 ← at2 img (i + 1) (j - 1);
  p10 ← at2 img (i - 1) j;       p11 ← at2 img i j;       p12 ← at2 img (i + 1) j;
  p20 ← at2 img (i - 1) (j + 1); p21 ← at2 img i (j + 1); p22 ← at2 img (i + 1) (j + 1);
  Some ( (p00 * kern K 0 0) + (p01 * kern K 0 1) + (p02 * kern K 0 2)
       + (p10 * kern K 1 0) + (p11 * kern K 1 1) + (p12 * kern K 1 2)
       + (p20 * kern K 2 0) + (p21 * kern K 2 1) + (p22 * kern K 2 2) ).

Definition G_x (img : image) (i j : nat) : option float := G prewitt_x img i j.
Definition G_y (img : image) (i j : nat) : option float := G prewitt_y img i j.

Definition G_mag (gx gy : float) : float := PrimFloat.sqrt (gx * gx + gy * gy).

Definition loop_body (img : image) (threshold : float) (i j : nat)
    (edge_img : image) : option image :=
  gx ← G_x img i j;
  gy ← G_y img i j;
  let g := G_mag gx gy in
  let g := if g <? threshold then 0 else g in
  set2 edge_img i j g.

Fixpoint for_ {A S} (xs : list A) (body : A → S → option S) (s : S) : option S :=
  match xs with
  | [] => Some s
  | x :: xs' => s' ← body x s; for_ xs' body s'
  end.

Definition prewitt_operator (GaussianBlur : image → image) (img : image)
    (threshold : float) (smooth : bool) : option image :=
  let rows := nrows img in
  let cols := ncols img in
  let edge_img := zeros rows cols in
  let img := if smooth then GaussianBlur img else img in
  for_ (range 1 (rows - 1)) (λ i,
    for_ (range 1 (cols - 1)) (λ j,
      loop_body img threshold i j)) edge_img.




(** A uniform 3x3 image of the integer 7. *)
Definition seven_image : image := replicate 3 (replicate 3 7).

(** The sample image of the evaluations below, in binary64. *)
Definition sample_image : image :=
  [[1; 2; 3];
   [4; 5; 6];
   [7; 8; 10]].

End B64.

(** ** Sample inputs *)

(** A 3x3 image with one interior pixel, and a store holding it. *)
Definition sample_image : image :=
  [[1; 2; 3];
   [4; 5; 6];
   [7; 8; 10]].

Definition sample_heap : heap := {[ 1%positive := sample_image ]}.

(** A 2x2 image: no interior pixel. *)
Definition small_image : image :=
  [[1; 2];
   [3; 4]].


(** A bright bottom row under two dark rows. *)
Definition step_image : image :=
  [[0; 0; 0];
   [0; 0; 0];
   [1; 1; 1]].

Definition step_heap : heap := {[ 1%positive := step_image ]}.

(** The sample image with another centre. *)
Definition sample_image_recentred : image :=
  [[1; 2; 3];
   [4; 0; 6];
   [7; 8; 10]].

(** The sample image by its integer samples. *)
Definition sample_integers : list (list Z) :=
  [[1; 2; 3];
   [4; 5; 6];
   [7; 8; 10]]%Z.

(** A row of 8-bit samples with a step in the middle. *)
Definition step_row : list Z := [0; 0; 255; 255]%Z.

(** A blur that changes nothing, the limit of a narrow Gaussian. *)
Definition no_blur (a : image) : image := a.

(** Not a blur: it returns an array without rows. *)
Definition shrinking_blur (a : image) : image := [].

(** Not an array: the middle row is one sample short. *)
Definition ragged_image : image :=
  [[1; 2; 3];
   [4; 5];
   [7; 8; 9]].

Section Prewitt.

(** [cv2.GaussianBlur(img, (3, 3), cv2.BORDER_DEFAULT)] as a function of the
    samples of [img]; the call returns a new array and leaves its argument
    as it was. The library is not part of the notebook: its weights and its
    border rule are left open, and it is taken to return on every array. *)
Variable GaussianBlur : image → image.

(** It keeps the shape of the array. *)
Hypothesis GaussianBlur_shape :
  ∀ (a : image) r c, has_shape a r c → has_shape (GaussianBlur a) r c.

Definition cv2_GaussianBlur (img : loc) : M loc :=
  a <- load img ;; alloc (GaussianBlur a).

(** One iteration of the inner loop: the two sums over the array [img]
    names, the magnitude, the threshold, the store into [edge_img]. *)
Definition loop_body (img edge_img : loc) (threshold : R) (i j : nat) : M unit :=
  a <- load img ;;
  gx <- index (G_x a i j) ;;
  gy <- index (G_y a i j) ;;
  let g := G_mag gx gy in
  let g := if Rlt_dec g threshold then 0 else g in
  setitem edge_img i j g.

(** The function of the notebook. Its only word on the threshold is the
    comment above the [def]: "Threshold values should be between 0 and 255";
    the body compares and does not check.
<<
    rows, cols = img.shape
    edge_img = np.zeros((rows, cols))
    if smooth:
        img = cv2.GaussianBlur(img, (3, 3), cv2.BORDER_DEFAULT)
    for i in range(1, rows-1):
        for j in range(1, cols-1):
            G_x = ...; G_y = ...
            G_mag = np.sqrt(G_x ** 2 + G_y ** 2)
            if G_mag < threshold: G_mag = 0
            edge_img[i, j] = G_mag
    return edge_img
>> *)
Definition prewitt_operator (img : loc) (threshold : R) (smooth : bool) : M loc :=
  sh <- shape img ;;
  let '(rows, cols) := sh in
  edge_img <- np_zeros rows cols ;;
  img <- (if smooth then cv2_GaussianBlur img else ret img) ;;
  for_ (range 1 (rows - 1)) (λ i,
    for_ (range 1 (cols - 1)) (λ j,
      loop_body img edge_img threshold i j)) ;;;
  ret edge_img.

(** The array the loops read: the blurred image when [smooth] is set. *)
Definition source (a : image) (smooth : bool) : image :=
  if smooth then GaussianBlur a else a.

(** The array a call returns, read from the store the call leaves; [None]
    when the call raises. *)
Definition returned (r : result (loc * heap)) : option image :=
  match r with
  | Ok (l, h) => h !! l
  | Raise _ => None
  end.

(** ** Vocabulary of the properties *)

(** [a[i, j]] with 0 outside the array: the sample the formulas speak of. *)
Definition px (a : image) (i j : nat) : R := default 0 (at2 a i j).


(** The sum over [{0, 1, 2}]. *)
Definition sum3 (f : nat → R) : R := f 0%nat + f 1%nat + f 2%nat.

(** The convolution as the specification writes it, row-major:
    the sum over [u, v] of [K[u][v] * input[i-1+u][j-1+v]]. *)
Definition conv (K : list (list Z)) (a : image) (i j : nat) : R :=
  sum3 (λ u, sum3 (λ v, kern K u v * px a (i - 1 + u) (j - 1 + v))).

(** The same sum with the neighbourhood transposed:
    [K[u][v] * input[i-1+v][j-1+u]]. *)
Definition conv_transposed (K : list (list Z)) (a : image) (i j : nat) : R :=
  sum3 (λ u, sum3 (λ v, kern K u v * px a (i - 1 + v) (j - 1 + u))).

(** The transpose of a 3x3 kernel. *)
Definition transpose3 (K : list (list Z)) : list (list Z) :=
  (λ v, (λ u, (K !!! u) !!! v) <$> [0; 1; 2]%nat) <$> [0; 1; 2]%nat.

(** ** The loops as functions on the output array *)

(** [a[i, j] = v] as a total function: the array is left as it is when the
    index is out of bounds (where [set2] fails). *)
Definition write (a : image) (i j : nat) (v : R) : image :=
  default a (set2 a i j v).

(** The value an iteration stores at [(i, j)], computed from the samples
    [img]; [None] when a read is out of bounds. *)
Definition pixel (img : image) (threshold : R) (i j : nat) : option R :=
  gx ← G_x img i j;
  gy ← G_y img i j;
  Some (suppress threshold (G_mag gx gy)).

(** The value of [pixel], 0 where it fails. *)
Definition pixel_value (img : image) (threshold : R) (i j : nat) : R :=
  default 0 (pixel img threshold i j).

(** What the inner loop over [js] makes of the output array [o]. *)
Definition fill_row (img : image) (threshold : R) (i : nat) (js : list nat)
    (o : image) : image :=
  foldl (λ o j, write o i j (pixel_value img threshold i j)) o js.

(** What the two loops make of the output array [o]. *)
Definition fill (img : image) (threshold : R) (iis js : list nat)
    (o : image) : image :=
  foldl (λ o i, fill_row img threshold i js o) o iis.

(** The edge image of the samples [img], for an output of [r] by [c]. *)
Definition edges (img : image) (threshold : R) (r c : nat) : image :=
  fill img threshold (range 1 (r - 1)) (range 1 (c - 1)) (zeros r c).

(** ** Vocabulary of the further properties *)

(** A function applied to every sample. *)
Definition map_image (f : R → R) (a : image) : image :=
  (λ row : list R, f <$> row) <$> a.

(** The gradient magnitude at [(i, j)], before the threshold. *)
Definition gradient (a : image) (i j : nat) : R :=
  G_mag (conv prewitt_x a i j) (conv prewitt_y a i j).

(** Every sample [x] replaced by [k * x + c]. *)
Definition affine_image (k c : R) (a : image) : image :=
  map_image (λ x, k * x + c) a.

(** An image by its integer samples. *)
Definition integer_image (az : list (list Z)) : image :=
  (λ row : list Z, IZR <$> row) <$> az.

(** Every sample is an 8-bit intensity, from 0 to 255. *)
Definition eight_bit (az : list (list Z)) : Prop :=
  Forall (Forall (λ z, 0 ≤ z ≤ 255)%Z) az.

(** Every integer sample [z] replaced by [k * z + c]. *)
Definition affine_Z (k c : Z) (az : list (list Z)) : list (list Z) :=
  (λ row : list Z, (λ z, k * z + c)%Z <$> row) <$> az.

(** Every sample lies between [lo] and [hi]. *)
Definition within (lo hi : R) (a : image) : Prop :=
  Forall (Forall (λ x, lo <= x <= hi)) a.

(** The transposed array: row [j] of the result is column [j] of [a]. *)
Definition transpose_image (a : image) : image :=
  (λ j : nat, (λ row : list R, default 0 (row !! j)) <$> a) <$> seq 0 (ncols a).

(** ** Shapes and cell access *)

Lemma rectangular_has_shape (a : image) :
  rectangular a → has_shape a (nrows a) (ncols a).
Proof. intros Ha. split; [reflexivity | exact Ha]. Qed.

Lemma has_shape_rectangular (a : image) r c :
  has_shape a r c → rectangular a.
Proof.
  intros [_ Hc]. unfold rectangular.
  destruct a as [|row a]; [constructor|].
  simpl. pose proof (Forall_inv Hc) as Hrow. simpl in Hrow.
  by rewrite Hrow.
Qed.

Lemma has_shape_ncols (a : image) r c :
  has_shape a r c → (0 < r)%nat → ncols a = c.
Proof.
  intros [Hr Hc] Hpos. destruct a as [|row a]; simpl in *; [lia|].
  by inversion Hc.
Qed.

Lemma zeros_has_shape r c : has_shape (zeros r c) r c.
Proof.
  split; unfold zeros.
  - apply length_replicate.
  - apply Forall_replicate, length_replicate.
Qed.

Lemma at2_zeros r c i j :
  (i < r)%nat → (j < c)%nat → at2 (zeros r c) i j = Some 0.
Proof.
  intros Hi Hj. unfold at2, zeros.
  rewrite lookup_replicate_2 by done. simpl.
  by apply lookup_replicate_2.
Qed.

Lemma has_shape_row (a : image) r c i row :
  has_shape a r c → a !! i = Some row → length row = c.
Proof. intros [_ Hc] Hi. exact (proj1 (Forall_lookup _ _) Hc i row Hi). Qed.

Lemma at2_is_Some (a : image) r c i j :
  has_shape a r c → (i < r)%nat → (j < c)%nat → is_Some (at2 a i j).
Proof.
  intros Ha Hi Hj. unfold at2.
  destruct (lookup_lt_is_Some_2 a i) as [row Hrow]; [destruct Ha; lia|].
  rewrite Hrow. simpl. apply lookup_lt_is_Some_2.
  by rewrite (has_shape_row a r c i row).
Qed.

Lemma at2_px (a : image) r c i j :
  has_shape a r c → (i < r)%nat → (j < c)%nat → at2 a i j = Some (px a i j).
Proof.
  intros Ha Hi Hj. unfold px.
  by destruct (at2_is_Some a r c i j Ha Hi Hj) as [v ->].
Qed.

Lemma at2_lt (a : image) r c i j v :
  has_shape a r c → at2 a i j = Some v → (i < r)%nat ∧ (j < c)%nat.
Proof.
  intros Ha. unfold at2. destruct (a !! i) as [row|] eqn:Hrow; simpl; [|done].
  intros Hj. split.
  - destruct Ha as [<- _]. by apply lookup_lt_Some in Hrow.
  - rewrite <- (has_shape_row a r c i row Ha Hrow). by apply lookup_lt_Some in Hj.
Qed.

(** Two arrays of one shape with the same cells are the same array. *)
Lemma image_ext (a b : image) r c :
  has_shape a r c → has_shape b r c →
  (∀ i j, (i < r)%nat → (j < c)%nat → at2 a i j = at2 b i j) → a = b.
Proof.
  intros Ha Hb Hcell. apply list_eq. intros i.
  destruct (decide (i < r)%nat) as [Hi|Hi].
  - destruct (lookup_lt_is_Some_2 a i) as [ra Hra]; [destruct Ha; lia|].
    destruct (lookup_lt_is_Some_2 b i) as [rb Hrb]; [destruct Hb; lia|].
    rewrite Hra, Hrb. f_equal. apply list_eq. intros j.
    destruct (decide (j < c)%nat) as [Hj|Hj].
    + specialize (Hcell i j Hi Hj). unfold at2 in Hcell.
      by rewrite Hra, Hrb in Hcell.
    + rewrite !lookup_ge_None_2; [done| |].
      * rewrite (has_shape_row b r c i rb); [lia|done..].
      * rewrite (has_shape_row a r c i ra); [lia|done..].
  - rewrite !lookup_ge_None_2; [done| |]; [destruct Hb|destruct Ha]; lia.
Qed.

(** ** One write into an array *)

Lemma set2_write (a : image) r c i j v :
  has_shape a r c → (i < r)%nat → (j < c)%nat →
  set2 a i j v = Some (write a i j v).
Proof.
  intros Ha Hi Hj. unfold write, set2.
  destruct (lookup_lt_is_Some_2 a i) as [row Hrow]; [destruct Ha; lia|].
  rewrite Hrow. rewrite (has_shape_row a r c i row Ha Hrow).
  by rewrite decide_True.
Qed.

Lemma write_has_shape (a : image) r c i j v :
  has_shape a r c → has_shape (write a i j v) r c.
Proof.
  intros Ha. unfold write, set2.
  destruct (a !! i) as [row|] eqn:Hrow; simpl; [|done].
  case_decide; simpl; [|done].
  destruct Ha as [Hr Hc]. split.
  - by rewrite length_insert.
  - apply Forall_insert; [done|].
    rewrite length_insert. exact (proj1 (Forall_lookup _ _) Hc i row Hrow).
Qed.

Lemma at2_write_eq (a : image) r c i j v :
  has_shape a r c → (i < r)%nat → (j < c)%nat →
  at2 (write a i j v) i j = Some v.
Proof.
  intros Ha Hi Hj. unfold write, set2.
  destruct (lookup_lt_is_Some_2 a i) as [row Hrow]; [destruct Ha; lia|].
  rewrite Hrow. pose proof (has_shape_row a r c i row Ha Hrow) as Hlen.
  rewrite decide_True by lia. simpl. unfold at2.
  rewrite list_lookup_insert_eq by (destruct Ha; lia). simpl.
  apply list_lookup_insert_eq. lia.
Qed.

Lemma at2_write_ne (a : image) i j v i' j' :
  (i', j') ≠ (i, j) → at2 (write a i j v) i' j' = at2 a i' j'.
Proof.
  intros Hne. unfold write, set2.
  destruct (a !! i) as [row|] eqn:Hrow; simpl; [|done].
  case_decide; simpl; [|done]. unfold at2.
  destruct (decide (i' = i)) as [->|Hi].
  - rewrite list_lookup_insert_eq by (by apply lookup_lt_Some in Hrow).
    rewrite Hrow. simpl. apply list_lookup_insert_ne. congruence.
  - by rewrite list_lookup_insert_ne.
Qed.

(** ** The loops on the output array *)

Lemma fill_row_has_shape img t i js (o : image) r c :
  has_shape o r c → has_shape (fill_row img t i js o) r c.
Proof.
  revert o. induction js as [|j js IH]; intros o Ho; simpl; [done|].
  apply IH. by apply write_has_shape.
Qed.

Lemma fill_has_shape img t iis js (o : image) r c :
  has_shape o r c → has_shape (fill img t iis js o) r c.
Proof.
  revert o. induction iis as [|i iis IH]; intros o Ho; simpl; [done|].
  apply IH. by apply fill_row_has_shape.
Qed.

(** A cell outside row [i] or outside the columns [js] is not written. *)
Lemma at2_fill_row_out img t i js (o : image) i' j' :
  i' ≠ i ∨ j' ∉ js →
  at2 (fill_row img t i js o) i' j' = at2 o i' j'.
Proof.
  revert o. induction js as [|j js IH]; intros o Hout; simpl; [done|].
  rewrite IH.
  - apply at2_write_ne. intros [= -> ->]. destruct Hout as [?|Hj]; [done|].
    apply Hj. left.
  - destruct Hout as [?|Hj]; [by left|]. right. intros ?. apply Hj. by right.
Qed.

(** A cell of row [i] in a column of [js] holds the pixel value. *)
Lemma at2_fill_row_in img t i js (o : image) r c j :
  has_shape o r c → (i < r)%nat → (j < c)%nat → j ∈ js →
  at2 (fill_row img t i js o) i j = Some (pixel_value img t i j).
Proof.
  revert o. induction js as [|j0 js IH]; intros o Ho Hi Hj Hin; simpl.
  - by apply elem_of_nil in Hin.
  - destruct (decide (j ∈ js)) as [Hjs|Hjs].
    + apply (IH _ (write_has_shape o r c i j0 _ Ho) Hi Hj Hjs).
    + apply elem_of_cons in Hin as [->|?]; [|done].
      rewrite at2_fill_row_out by (by right).
      by apply (at2_write_eq o r c).
Qed.

Lemma at2_fill_out img t iis js (o : image) i' j' :
  i' ∉ iis ∨ j' ∉ js →
  at2 (fill img t iis js o) i' j' = at2 o i' j'.
Proof.
  revert o. induction iis as [|i iis IH]; intros o Hout; simpl; [done|].
  rewrite IH.
  - apply at2_fill_row_out. destruct Hout as [Hi|?]; [|by right].
    left. intros ->. apply Hi. left.
  - destruct Hout as [Hi|?]; [|by right]. left. intros ?. apply Hi. by right.
Qed.

Lemma at2_fill_in img t iis js (o : image) r c i j :
  has_shape o r c → (i < r)%nat → (j < c)%nat → i ∈ iis → j ∈ js →
  at2 (fill img t iis js o) i j = Some (pixel_value img t i j).
Proof.
  revert o. induction iis as [|i0 iis IH]; intros o Ho Hi Hj Hiin Hjin; simpl.
  - by apply elem_of_nil in Hiin.
  - destruct (decide (i ∈ iis)) as [His|His].
    + apply (IH _ (fill_row_has_shape _ _ _ _ o r c Ho) Hi Hj His Hjin).
    + apply elem_of_cons in Hiin as [->|?]; [|done].
      rewrite at2_fill_out by (by left).
      by apply (at2_fill_row_in _ _ _ _ o r c).
Qed.

Lemma elem_of_range a b k : k ∈ range a b ↔ (a ≤ k < b)%nat.
Proof. unfold range. rewrite elem_of_seq. lia. Qed.

(** ** The loops in the store *)

Lemma loop_body_run img out t i j (h : heap) (a o : image) r c :
  img ≠ out → h !! img = Some a → h !! out = Some o →
  has_shape o r c → (i < r)%nat → (j < c)%nat → is_Some (pixel a t i j) →
  loop_body img out t i j h
  = Ok (tt, <[out := write o i j (pixel_value a t i j)]> h).
Proof.
  intros Hne Himg Hout Ho Hi Hj [v Hv].
  unfold pixel_value. rewrite Hv. simpl.
  unfold pixel in Hv.
  destruct (G_x a i j) as [gx|] eqn:Hgx; simpl in Hv; [|done].
  destruct (G_y a i j) as [gy|] eqn:Hgy; simpl in Hv; [|done].
  injection Hv as <-.
  unfold loop_body, setitem, bind, load.
  rewrite Himg, Hgx. simpl. rewrite Hgy. simpl. unfold ret. rewrite Hout.
  fold (suppress t (G_mag gx gy)).
  by rewrite (set2_write o r c i j _ Ho Hi Hj).
Qed.

Lemma for_inner_run img out t i js (h : heap) (a o : image) r c :
  img ≠ out → h !! img = Some a → h !! out = Some o → has_shape o r c →
  (∀ j, j ∈ js → (i < r)%nat ∧ (j < c)%nat ∧ is_Some (pixel a t i j)) →
  for_ js (loop_body img out t i) h
  = Ok (tt, <[out := fill_row a t i js o]> h).
Proof.
  intros Hne. revert h o.
  induction js as [|j js IH]; intros h o Himg Hout Ho Hjs; simpl.
  - unfold ret. by rewrite insert_id.
  - destruct (Hjs j) as (Hi & Hj & Hpx); [left|].
    unfold bind at 1.
    rewrite (loop_body_run img out t i j h a o r c) by done.
    rewrite (IH _ (write o i j (pixel_value a t i j))).
    + by rewrite insert_insert_eq.
    + by rewrite lookup_insert_ne.
    + by rewrite lookup_insert_eq.
    + by apply write_has_shape.
    + intros j' Hj'. apply Hjs. by right.
Qed.

Lemma for_outer_run img out t iis js (h : heap) (a o : image) r c :
  img ≠ out → h !! img = Some a → h !! out = Some o → has_shape o r c →
  (∀ i j, i ∈ iis → j ∈ js →
     (i < r)%nat ∧ (j < c)%nat ∧ is_Some (pixel a t i j)) →
  for_ iis (λ i, for_ js (loop_body img out t i)) h
  = Ok (tt, <[out := fill a t iis js o]> h).
Proof.
  intros Hne. revert h o.
  induction iis as [|i iis IH]; intros h o Himg Hout Ho Hcells; simpl.
  - unfold ret. by rewrite insert_id.
  - unfold bind at 1.
    rewrite (for_inner_run img out t i js h a o r c); try done.
    + rewrite (IH _ (fill_row a t i js o)).
      * by rewrite insert_insert_eq.
      * by rewrite lookup_insert_ne.
      * by rewrite lookup_insert_eq.
      * by apply fill_row_has_shape.
      * intros i' j' Hi' Hj'. apply Hcells; [by right|done].
    + intros j Hj. apply Hcells; [left|done].
Qed.

(** ** The pixel computation *)

(** At an interior pixel the nine reads succeed, and the source's sum is the
    sum with the neighbourhood transposed. *)
Lemma G_interior K (a : image) r c i j :
  has_shape a r c →
  (1 ≤ i)%nat → (i + 1 < r)%nat → (1 ≤ j)%nat → (j + 1 < c)%nat →
  G K a i j = Some (conv_transposed K a i j).
Proof.
  intros Ha Hi1 Hi2 Hj1 Hj2. unfold G.
  rewrite !(at2_px a r c) by (done || lia). simpl.
  f_equal. unfold conv_transposed, sum3.
  rewrite !Nat.add_0_r.
  replace (i - 1 + 1)%nat with i by lia.
  replace (i - 1 + 2)%nat with (i + 1)%nat by lia.
  replace (j - 1 + 1)%nat with j by lia.
  replace (j - 1 + 2)%nat with (j + 1)%nat by lia.
  ring.
Qed.

(** Transposing the neighbourhood is transposing the kernel. *)
Lemma conv_transposed_transpose3 K (a : image) i j :
  conv_transposed K a i j = conv (transpose3 K) a i j.
Proof. unfold conv_transposed, conv, sum3, kern. simpl. ring. Qed.

Lemma transpose3_prewitt_x : transpose3 prewitt_x = prewitt_y.
Proof. reflexivity. Qed.

Lemma transpose3_prewitt_y : transpose3 prewitt_y = prewitt_x.
Proof. reflexivity. Qed.

Lemma G_x_interior (a : image) r c i j :
  has_shape a r c →
  (1 ≤ i)%nat → (i + 1 < r)%nat → (1 ≤ j)%nat → (j + 1 < c)%nat →
  G_x a i j = Some (conv prewitt_y a i j).
Proof.
  intros. unfold G_x. rewrite (G_interior _ a r c) by done.
  by rewrite conv_transposed_transpose3, transpose3_prewitt_x.
Qed.

Lemma G_y_interior (a : image) r c i j :
  has_shape a r c →
  (1 ≤ i)%nat → (i + 1 < r)%nat → (1 ≤ j)%nat → (j + 1 < c)%nat →
  G_y a i j = Some (conv prewitt_x a i j).
Proof.
  intros. unfold G_y. rewrite (G_interior _ a r c) by done.
  by rewrite conv_transposed_transpose3, transpose3_prewitt_y.
Qed.

Lemma G_mag_comm gx gy : G_mag gx gy = G_mag gy gx.
Proof. unfold G_mag. f_equal. ring. Qed.

Lemma G_mag_nonneg gx gy : 0 <= G_mag gx gy.
Proof. apply sqrt_pos. Qed.

(** The stored value at an interior pixel, in the terms of the
    specification. *)
Lemma pixel_interior (a : image) t r c i j :
  has_shape a r c →
  (1 ≤ i)%nat → (i + 1 < r)%nat → (1 ≤ j)%nat → (j + 1 < c)%nat →
  pixel a t i j
  = Some (suppress t (G_mag (conv prewitt_x a i j) (conv prewitt_y a i j))).
Proof.
  intros. unfold pixel.
  rewrite (G_x_interior a r c), (G_y_interior a r c) by done. simpl.
  by rewrite G_mag_comm.
Qed.

(** ** The call *)

Lemma loops_run img out t (h : heap) (a : image) r c :
  img ≠ out → h !! img = Some a → h !! out = Some (zeros r c) →
  has_shape a r c →
  for_ (range 1 (r - 1)) (λ i,
    for_ (range 1 (c - 1)) (λ j, loop_body img out t i j)) h
  = Ok (tt, <[out := edges a t r c]> h).
Proof.
  intros Hne Himg Hout Ha.
  apply (for_outer_run img out t _ _ h a (zeros r c) r c); try done.
  - apply zeros_has_shape.
  - intros i j [Hi1 Hi2]%elem_of_range [Hj1 Hj2]%elem_of_range.
    split; [lia|]. split; [lia|].
    rewrite (pixel_interior a t r c) by (done || lia). eauto.
Qed.

(** The call returns a new array holding the edge image of the source, and
    every array of the caller's store is as it was. The blurred image has to
    have the shape of the input for the reads to stay in bounds. *)
Lemma prewitt_operator_run (h : heap) img (a : image) t s :
  h !! img = Some a →
  has_shape (source a s) (nrows a) (ncols a) →
  ∃ out h',
    prewitt_operator img t s h = Ok (out, h')
    ∧ h !! out = None
    ∧ h' !! out = Some (edges (source a s) t (nrows a) (ncols a))
    ∧ (∀ l, is_Some (h !! l) → h' !! l = h !! l).
Proof.
  intros Himg Ha.
  set (r := nrows a) in *. set (c := ncols a) in *.
  set (out := fresh (dom h)).
  assert (h !! out = None) as Hfresh.
  { apply not_elem_of_dom. apply is_fresh. }
  assert (img ≠ out) as Hne by (intros ->; congruence).
  set (h1 := <[out := zeros r c]> h).
  unfold prewitt_operator, shape, np_zeros, alloc, bind, load, ret.
  rewrite Himg. fold r c. simpl. fold out h1.
  destruct s; simpl in *.
  - unfold cv2_GaussianBlur, bind, load, alloc.
    assert (h1 !! img = Some a) as Himg1.
    { unfold h1. by rewrite lookup_insert_ne. }
    rewrite Himg1. simpl.
    set (b := fresh (dom h1)).
    assert (h1 !! b = None) as Hb.
    { apply not_elem_of_dom. apply is_fresh. }
    assert (b ≠ out) as Hbo.
    { intros Heq. rewrite Heq in Hb. unfold h1 in Hb.
      by rewrite lookup_insert_eq in Hb. }
    set (h2 := <[b := GaussianBlur a]> h1).
    rewrite (loops_run b out t h2 (GaussianBlur a) r c); try done.
    + exists out, (<[out := edges (GaussianBlur a) t r c]> h2).
      split; [done|]. split; [done|]. split; [by rewrite lookup_insert_eq|].
      intros l [x Hl].
      assert (l ≠ out) by congruence.
      assert (l ≠ b).
      { intros ->. unfold h1 in Hb. rewrite lookup_insert_ne in Hb by done.
        congruence. }
      unfold h2, h1. by rewrite !lookup_insert_ne.
    + unfold h2. by rewrite lookup_insert_eq.
    + unfold h2, h1. rewrite lookup_insert_ne by done.
      by rewrite lookup_insert_eq.
  - rewrite (loops_run img out t h1 a r c); try done.
    + exists out, (<[out := edges a t r c]> h1).
      split; [done|]. split; [done|]. split; [by rewrite lookup_insert_eq|].
      intros l [x Hl].
      assert (l ≠ out) by congruence.
      unfold h1. by rewrite !lookup_insert_ne.
    + unfold h1. by rewrite lookup_insert_ne.
    + unfold h1. by rewrite lookup_insert_eq.
Qed.

Lemma prewitt_operator_returned (h : heap) img (a : image) t s :
  h !! img = Some a →
  has_shape (source a s) (nrows a) (ncols a) →
  returned (prewitt_operator img t s h)
  = Some (edges (source a s) t (nrows a) (ncols a)).
Proof.
  intros Himg Ha.
  destruct (prewitt_operator_run h img a t s Himg Ha)
    as (out & h' & -> & _ & Hout & _).
  exact Hout.
Qed.

(** ** The cells of the edge image *)

Lemma edges_has_shape (src : image) t r c : has_shape (edges src t r c) r c.
Proof. apply fill_has_shape, zeros_has_shape. Qed.

Lemma at2_edges_interior (src : image) t r c i j :
  has_shape src r c →
  (1 ≤ i)%nat → (i + 1 < r)%nat → (1 ≤ j)%nat → (j + 1 < c)%nat →
  at2 (edges src t r c) i j
  = Some (suppress t (G_mag (conv prewitt_x src i j)
                                (conv prewitt_y src i j))).
Proof.
  intros Hsrc Hi1 Hi2 Hj1 Hj2. unfold edges.
  rewrite (at2_fill_in src t _ _ _ r c).
  - unfold pixel_value. by rewrite (pixel_interior src t r c).
  - apply zeros_has_shape.
  - lia.
  - lia.
  - apply elem_of_range. lia.
  - apply elem_of_range. lia.
Qed.

Lemma at2_edges_border (src : image) t r c i j :
  (i < r)%nat → (j < c)%nat →
  i = 0%nat ∨ i = (r - 1)%nat ∨ j = 0%nat ∨ j = (c - 1)%nat →
  at2 (edges src t r c) i j = Some 0.
Proof.
  intros Hi Hj Hborder. unfold edges.
  rewrite at2_fill_out.
  - by apply at2_zeros.
  - rewrite !elem_of_range. lia.
Qed.

Lemma at2_edges_outside (src : image) t r c i j :
  ¬ ((i < r)%nat ∧ (j < c)%nat) → at2 (edges src t r c) i j = None.
Proof.
  intros Hout. destruct (at2 (edges src t r c) i j) as [v|] eqn:Hv; [|done].
  destruct Hout. exact (at2_lt _ r c i j v (edges_has_shape src t r c) Hv).
Qed.

Lemma fill_no_columns (src : image) t iis (o : image) : fill src t iis [] o = o.
Proof. induction iis as [|i iis IH]; simpl; [done|exact IH]. Qed.

Lemma edges_small (src : image) t r c :
  (r < 3)%nat ∨ (c < 3)%nat → edges src t r c = zeros r c.
Proof.
  intros [Hr|Hc]; unfold edges, range.
  - by replace (r - 1 - 1)%nat with 0%nat by lia.
  - replace (c - 1 - 1)%nat with 0%nat by lia. apply fill_no_columns.
Qed.

Lemma rectangular_source (a : image) s :
  rectangular a → has_shape (source a s) (nrows a) (ncols a).
Proof.
  intros Ha%rectangular_has_shape.
  destruct s; simpl; [by apply GaussianBlur_shape | done].
Qed.

(** Every cell of the edge image is of one of three kinds. *)
Lemma at2_edges_cases (src : image) t r c i j :
  has_shape src r c →
  at2 (edges src t r c) i j = None
  ∨ at2 (edges src t r c) i j = Some 0
  ∨ ((1 ≤ i)%nat ∧ (i + 1 < r)%nat ∧ (1 ≤ j)%nat ∧ (j + 1 < c)%nat
     ∧ at2 (edges src t r c) i j
       = Some (suppress t (G_mag (conv prewitt_x src i j)
                                     (conv prewitt_y src i j)))).
Proof.
  intros Hsrc.
  destruct (decide ((i < r)%nat ∧ (j < c)%nat)) as [[Hi Hj]|Hout].
  - destruct (decide ((1 ≤ i)%nat ∧ (i + 1 < r)%nat
                      ∧ (1 ≤ j)%nat ∧ (j + 1 < c)%nat)) as [Hin|Hb].
    + right. right. destruct Hin as (? & ? & ? & ?).
      repeat (split; [done|]). by apply at2_edges_interior.
    + right. left. apply at2_edges_border; lia.
  - left. by apply at2_edges_outside.
Qed.

(** ** Thresholding *)

Lemma suppress_below t m : m < t → suppress t m = 0.
Proof. intros Hlt. unfold suppress. by destruct (Rlt_dec m t). Qed.

Lemma suppress_not_below t m : ¬ m < t → suppress t m = m.
Proof. intros Hge. unfold suppress. by destruct (Rlt_dec m t). Qed.

Lemma suppress_monotone t1 t2 m :
  t1 <= t2 → suppress t1 m = 0 → suppress t2 m = 0.
Proof.
  intros Hle. unfold suppress.
  destruct (Rlt_dec m t1), (Rlt_dec m t2); intros Hz; lra.
Qed.

Lemma suppress_zero t : suppress t 0 = 0.
Proof. unfold suppress. by destruct (Rlt_dec 0 t). Qed.


(** ** Uniform images *)





(** ** The claims *)

(** C1. Without smoothing, on a rectangular image of at least 3 rows and 3
    columns and for a threshold [0 <= t], the output at an interior pixel
    [(i, j)] is [Gmag = sqrt (Gx^2 + Gy^2)], replaced by 0 when [Gmag < t],
    where [Gx] and [Gy] are the row-major sums of the neighbourhood against
    [Kx = prewitt_x] and [Ky = prewitt_y]. *)
Theorem C1_interior_gradient_magnitude (h : heap) img (a : image) t i j :
  h !! img = Some a → rectangular a →
  (3 ≤ nrows a)%nat → (3 ≤ ncols a)%nat → 0 <= t →
  (1 ≤ i ≤ nrows a - 2)%nat → (1 ≤ j ≤ ncols a - 2)%nat →
  ∃ out,
    returned (prewitt_operator img t false h) = Some out
    ∧ let Gx := conv prewitt_x a i j in
      let Gy := conv prewitt_y a i j in
      let Gmag := sqrt (Gx ^ 2 + Gy ^ 2) in
      at2 out i j = Some (if Rlt_dec Gmag t then 0 else Gmag).
Proof.
  intros Himg Ha Hr Hc Ht Hi Hj.
  pose proof (rectangular_has_shape a Ha) as Hshape.
  eexists. split.
  - exact (prewitt_operator_returned h img a t false Himg Hshape).
  - cbv zeta. simpl source.
    rewrite (at2_edges_interior a t _ _ i j Hshape) by lia.
    reflexivity.
Qed.

(** C2, as the code has it. A negative threshold raises nothing: the call
    returns an array of the shape of the input, and every interior pixel
    holds its magnitude, unsuppressed. *)
Theorem C2_negative_threshold_returns (h : heap) img (a : image) t s :
  h !! img = Some a → rectangular a → t < 0 →
  ∃ out h' o,
    prewitt_operator img t s h = Ok (out, h')
    ∧ h' !! out = Some o
    ∧ has_shape o (nrows a) (ncols a)
    ∧ ∀ i j, (1 ≤ i ≤ nrows a - 2)%nat → (1 ≤ j ≤ ncols a - 2)%nat →
        at2 o i j
        = Some (sqrt (conv prewitt_x (source a s) i j ^ 2
                      + conv prewitt_y (source a s) i j ^ 2)).
Proof.
  intros Himg Ha Ht.
  pose proof (rectangular_source a s Ha) as Hsrc.
  destruct (prewitt_operator_run h img a t s Himg Hsrc)
    as (out & h' & Hrun & _ & Hout & _).
  exists out, h', (edges (source a s) t (nrows a) (ncols a)).
  split; [done|]. split; [done|]. split; [apply edges_has_shape|].
  intros i j Hi Hj.
  rewrite (at2_edges_interior _ t _ _ i j Hsrc) by lia.
  f_equal. apply suppress_not_below.
  pose proof (G_mag_nonneg (conv prewitt_x (source a s) i j)
                               (conv prewitt_y (source a s) i j)) as Hpos.
  unfold G_mag in Hpos. lra.
Qed.

(** C3. For a rectangular image, a threshold [0 <= t] and either setting of
    [smooth], every cell of the output in row 0, in the last row, in column 0
    or in the last column is exactly 0. *)
Theorem C3_border_is_zero (h : heap) img (a : image) t s i j :
  h !! img = Some a → rectangular a → 0 <= t →
  (i < nrows a)%nat → (j < ncols a)%nat →
  i = 0%nat ∨ i = (nrows a - 1)%nat ∨ j = 0%nat ∨ j = (ncols a - 1)%nat →
  ∃ out,
    returned (prewitt_operator img t s h) = Some out
    ∧ at2 out i j = Some 0.
Proof.
  intros Himg Ha Ht Hi Hj Hborder.
  eexists. split.
  - exact (prewitt_operator_returned h img a t s Himg (rectangular_source a s Ha)).
  - by apply at2_edges_border.
Qed.

(** C4. For a rectangular image with fewer than 3 rows or fewer than 3
    columns, a threshold [0 <= t] and either setting of [smooth], the call
    raises nothing and returns the all-zero array of the shape of the
    input. *)
Theorem C4_degenerate_input_all_zero (h : heap) img (a : image) t s :
  h !! img = Some a → rectangular a → 0 <= t →
  (nrows a < 3)%nat ∨ (ncols a < 3)%nat →
  ∃ out h',
    prewitt_operator img t s h = Ok (out, h')
    ∧ h' !! out = Some (zeros (nrows a) (ncols a))
    ∧ has_shape (zeros (nrows a) (ncols a)) (nrows a) (ncols a).
Proof.
  intros Himg Ha Ht Hsmall.
  destruct (prewitt_operator_run h img a t s Himg (rectangular_source a s Ha))
    as (out & h' & Hrun & _ & Hout & _).
  exists out, h'. split; [done|]. split.
  - by rewrite Hout, edges_small.
  - apply zeros_has_shape.
Qed.

(** C5. For one image and one setting of [smooth], and thresholds
    [t1 <= t2], every cell that is 0 in the output at [t1] is 0 in the output
    at [t2]. *)
Theorem C5_threshold_monotone (h : heap) img (a : image) s t1 t2 :
  h !! img = Some a → rectangular a → t1 <= t2 →
  ∃ out1 out2,
    returned (prewitt_operator img t1 s h) = Some out1
    ∧ returned (prewitt_operator img t2 s h) = Some out2
    ∧ ∀ i j, at2 out1 i j = Some 0 → at2 out2 i j = Some 0.
Proof.
  intros Himg Ha Hle.
  pose proof (rectangular_source a s Ha) as Hsrc.
  eexists _, _. split; [|split].
  - exact (prewitt_operator_returned h img a t1 s Himg Hsrc).
  - exact (prewitt_operator_returned h img a t2 s Himg Hsrc).
  - intros i j H1.
    destruct (at2_edges_cases _ t2 _ _ i j Hsrc)
      as [Hnone | [Hzero | (? & ? & ? & ? & Hin)]].
    + rewrite at2_edges_outside in H1; [done|].
      intros [Hi Hj].
      destruct (at2_is_Some _ _ _ i j
                  (edges_has_shape (source a s) t2 (nrows a) (ncols a)) Hi Hj)
        as [x Hx].
      congruence.
    + done.
    + rewrite Hin. f_equal.
      rewrite (at2_edges_interior _ t1 _ _ i j Hsrc) in H1 by done.
      apply (suppress_monotone t1 t2); [done|congruence].
Qed.

(** C6. The comparison with the threshold is strict. At an interior pixel
    the output is 0 when [Gmag < threshold] and [Gmag] itself otherwise; so
    [Gmag = threshold] keeps the pixel, and threshold 0 suppresses nothing. *)
Theorem C6_threshold_is_strict (h : heap) img (a : image) t s i j :
  h !! img = Some a → rectangular a →
  (1 ≤ i ≤ nrows a - 2)%nat → (1 ≤ j ≤ ncols a - 2)%nat →
  ∃ out,
    returned (prewitt_operator img t s h) = Some out
    ∧ let Gmag := sqrt (conv prewitt_x (source a s) i j ^ 2
                        + conv prewitt_y (source a s) i j ^ 2) in
      (Gmag < t → at2 out i j = Some 0)
      ∧ (¬ Gmag < t → at2 out i j = Some Gmag)
      ∧ (Gmag = t → at2 out i j = Some Gmag)
      ∧ (t = 0 → at2 out i j = Some Gmag).
Proof.
  intros Himg Ha Hi Hj.
  pose proof (rectangular_source a s Ha) as Hsrc.
  eexists. split.
  - exact (prewitt_operator_returned h img a t s Himg Hsrc).
  - cbv zeta.
    rewrite (at2_edges_interior _ t _ _ i j Hsrc) by lia.
    fold (G_mag (conv prewitt_x (source a s) i j)
                    (conv prewitt_y (source a s) i j)).
    pose proof (G_mag_nonneg (conv prewitt_x (source a s) i j)
                                 (conv prewitt_y (source a s) i j)) as Hpos.
    generalize dependent (G_mag (conv prewitt_x (source a s) i j)
                                    (conv prewitt_y (source a s) i j)).
    intros m Hpos.
    repeat split; intros Hcmp; f_equal.
    + by apply suppress_below.
    + by apply suppress_not_below.
    + apply suppress_not_below. lra.
    + apply suppress_not_below. lra.
Qed.

(** C7. For a rectangular image and every configuration, the output has as
    many rows and as many columns as the input, in every row. *)
Theorem C7_output_dimensions (h : heap) img (a : image) t s :
  h !! img = Some a → rectangular a →
  ∃ out,
    returned (prewitt_operator img t s h) = Some out
    ∧ nrows out = nrows a
    ∧ ncols out = ncols a
    ∧ rectangular out.
Proof.
  intros Himg Ha.
  eexists. split.
  - exact (prewitt_operator_returned h img a t s Himg (rectangular_source a s Ha)).
  - pose proof (edges_has_shape (source a s) t (nrows a) (ncols a)) as Hout.
    split; [exact (proj1 Hout)|]. split.
    + destruct (decide (0 < nrows a)%nat) as [Hpos|Hzero].
      * by apply (has_shape_ncols _ (nrows a)).
      * destruct Hout as [Hlen _].
        destruct a; simpl in *; [|lia].
        by destruct (edges (source [] s) t 0 0).
    + by apply (has_shape_rectangular _ (nrows a) (ncols a)).
Qed.


(** C9. At an interior pixel the source multiplies the kernel entry at
    [(u, v)] by [img[i-1+v, j-1+u]]. What it accumulates as [G_x] is the
    row-major sum against [prewitt_y], and its [G_y] the row-major sum
    against [prewitt_x]; the transpose of [prewitt_x] is [prewitt_y], and the
    magnitude is that of the row-major sums. *)
Theorem C9_neighbourhood_is_transposed (a : image) i j :
  rectangular a →
  (1 ≤ i ≤ nrows a - 2)%nat → (1 ≤ j ≤ ncols a - 2)%nat →
  ∃ gx gy,
    G_x a i j = Some gx ∧ G_y a i j = Some gy
    ∧ gx = conv_transposed prewitt_x a i j
    ∧ gy = conv_transposed prewitt_y a i j
    ∧ gx = conv prewitt_y a i j
    ∧ gy = conv prewitt_x a i j
    ∧ transpose3 prewitt_x = prewitt_y
    ∧ sqrt (gx ^ 2 + gy ^ 2)
      = sqrt (conv prewitt_x a i j ^ 2 + conv prewitt_y a i j ^ 2).
Proof.
  intros Ha%rectangular_has_shape Hi Hj.
  exists (conv_transposed prewitt_x a i j), (conv_transposed prewitt_y a i j).
  split; [apply (G_interior _ a (nrows a) (ncols a)); (done || lia)|].
  split; [apply (G_interior _ a (nrows a) (ncols a)); (done || lia)|].
  split; [done|]. split; [done|].
  rewrite !conv_transposed_transpose3.
  rewrite transpose3_prewitt_x, transpose3_prewitt_y.
  split; [done|]. split; [done|]. split; [done|].
  f_equal. ring.
Qed.

(** C10. The call leaves the caller's image, and every other array of the
    caller's store, as it was: the output is a new array, distinct from the
    input. The returned image depends on the samples of the input and on the
    configuration only: a call on an equal image, from any store and under
    any name, returns an equal image. *)
Theorem C10_input_untouched_and_deterministic (h : heap) img (a : image) t s :
  h !! img = Some a → rectangular a →
  ∃ out h',
    prewitt_operator img t s h = Ok (out, h')
    ∧ out ≠ img
    ∧ h' !! img = Some a
    ∧ (∀ l, is_Some (h !! l) → h' !! l = h !! l)
    ∧ (∀ (h2 : heap) img2, h2 !! img2 = Some a →
         returned (prewitt_operator img2 t s h2) = h' !! out).
Proof.
  intros Himg Ha.
  pose proof (rectangular_source a s Ha) as Hsrc.
  destruct (prewitt_operator_run h img a t s Himg Hsrc)
    as (out & h' & Hrun & Hfresh & Hout & Hframe).
  exists out, h'. split; [done|]. split; [congruence|]. split.
  - rewrite Hframe by eauto. done.
  - split; [done|]. intros h2 img2 Himg2.
    by rewrite Hout, (prewitt_operator_returned h2 img2 a t s Himg2 Hsrc).
Qed.

(** ** Further properties of the call *)

Lemma map_image_has_shape f (a : image) r c :
  has_shape a r c → has_shape (map_image f a) r c.
Proof.
  intros [Hr Hc]. split; unfold map_image.
  - by rewrite length_fmap.
  - apply Forall_fmap. eapply Forall_impl; [exact Hc|].
    intros row Hrow. simpl. by rewrite length_fmap.
Qed.

Lemma at2_map_image f (a : image) i j :
  at2 (map_image f a) i j = f <$> at2 a i j.
Proof.
  unfold at2, map_image. rewrite list_lookup_fmap.
  destruct (a !! i) as [row|]; simpl; [|done].
  apply list_lookup_fmap.
Qed.

Lemma gradient_nonneg (a : image) i j : 0 <= gradient a i j.
Proof. apply G_mag_nonneg. Qed.

Lemma suppress_nonneg t m : 0 <= m → 0 <= suppress t m.
Proof. intros Hm. unfold suppress. destruct (Rlt_dec m t); lra. Qed.

Lemma suppress_zero_or_above t m : suppress t m = 0 ∨ t <= suppress t m.
Proof. unfold suppress. destruct (Rlt_dec m t); [by left | right; lra]. Qed.

Lemma suppress_le t m : 0 <= m → suppress t m <= m.
Proof. intros Hm. unfold suppress. destruct (Rlt_dec m t); lra. Qed.

(** The interior cells in the vocabulary of [gradient]. *)
Lemma at2_edges_gradient (src : image) t r c i j :
  has_shape src r c →
  (1 ≤ i)%nat → (i + 1 < r)%nat → (1 ≤ j)%nat → (j + 1 < c)%nat →
  at2 (edges src t r c) i j = Some (suppress t (gradient src i j)).
Proof. apply at2_edges_interior. Qed.

(** A cell of the edge image is 0 on the border and the thresholded gradient
    inside. *)
Lemma at2_edges_inv (src : image) t r c i j v :
  has_shape src r c → at2 (edges src t r c) i j = Some v →
  (i < r)%nat ∧ (j < c)%nat
  ∧ (v = 0
     ∨ ((1 ≤ i)%nat ∧ (i + 1 < r)%nat ∧ (1 ≤ j)%nat ∧ (j + 1 < c)%nat
        ∧ v = suppress t (gradient src i j))).
Proof.
  intros Hsrc Hv.
  destruct (at2_lt _ r c i j v (edges_has_shape src t r c) Hv) as [Hi Hj].
  split; [done|]. split; [done|].
  destruct (at2_edges_cases src t r c i j Hsrc)
    as [Hnone | [Hzero | (? & ? & ? & ? & Hin)]].
  - congruence.
  - left. congruence.
  - right. repeat (split; [done|]). unfold gradient. congruence.
Qed.

(** Edge images that agree, up to a function fixing 0, at every interior
    pixel are images of each other. *)
Lemma edges_map_image f (src src' : image) t t' r c :
  f 0 = 0 → has_shape src r c → has_shape src' r c →
  (∀ i j, (1 ≤ i)%nat → (i + 1 < r)%nat → (1 ≤ j)%nat → (j + 1 < c)%nat →
     suppress t' (gradient src' i j) = f (suppress t (gradient src i j))) →
  edges src' t' r c = map_image f (edges src t r c).
Proof.
  intros Hf Hsrc Hsrc' Hcell.
  apply (image_ext _ _ r c).
  - apply edges_has_shape.
  - apply map_image_has_shape, edges_has_shape.
  - intros i j Hi Hj. rewrite at2_map_image.
    destruct (decide ((1 ≤ i)%nat ∧ (i + 1 < r)%nat
                      ∧ (1 ≤ j)%nat ∧ (j + 1 < c)%nat)) as [Hin|Hb].
    + destruct Hin as (? & ? & ? & ?).
      rewrite !at2_edges_gradient by done. simpl. f_equal. by apply Hcell.
    + rewrite !at2_edges_border by lia. simpl. by rewrite Hf.
Qed.

(** X1. Every cell of the returned image is non-negative, for every
    threshold and either setting of [smooth]. *)
Theorem output_nonnegative (h : heap) img (a : image) t s :
  h !! img = Some a → rectangular a →
  ∃ out,
    returned (prewitt_operator img t s h) = Some out
    ∧ ∀ i j v, at2 out i j = Some v → 0 <= v.
Proof.
  intros Himg Ha.
  pose proof (rectangular_source a s Ha) as Hsrc.
  eexists. split.
  - exact (prewitt_operator_returned h img a t s Himg Hsrc).
  - intros i j v Hv.
    destruct (at2_edges_inv _ _ _ _ i j v Hsrc Hv)
      as (_ & _ & [-> | (_ & _ & _ & _ & ->)]); [lra|].
    apply suppress_nonneg, gradient_nonneg.
Qed.

(** X2. No cell of the returned image lies strictly between 0 and the
    threshold: a cell is 0 or at least the threshold. *)
Theorem output_zero_or_above_threshold (h : heap) img (a : image) t s :
  h !! img = Some a → rectangular a →
  ∃ out,
    returned (prewitt_operator img t s h) = Some out
    ∧ ∀ i j v, at2 out i j = Some v → v = 0 ∨ t <= v.
Proof.
  intros Himg Ha.
  pose proof (rectangular_source a s Ha) as Hsrc.
  eexists. split.
  - exact (prewitt_operator_returned h img a t s Himg Hsrc).
  - intros i j v Hv.
    destruct (at2_edges_inv _ _ _ _ i j v Hsrc Hv)
      as (_ & _ & [-> | (_ & _ & _ & _ & ->)]); [by left|].
    apply suppress_zero_or_above.
Qed.

(** X3. The threshold composes with the operator: the image returned at
    threshold [t] is the image returned at threshold 0 with every sample
    below [t] replaced by 0. *)
Theorem threshold_after_operator (h : heap) img (a : image) t s :
  h !! img = Some a → rectangular a →
  ∃ out0 out,
    returned (prewitt_operator img 0 s h) = Some out0
    ∧ returned (prewitt_operator img t s h) = Some out
    ∧ out = map_image (suppress t) out0.
Proof.
  intros Himg Ha.
  pose proof (rectangular_source a s Ha) as Hsrc.
  eexists _, _. split; [|split].
  - exact (prewitt_operator_returned h img a 0 s Himg Hsrc).
  - exact (prewitt_operator_returned h img a t s Himg Hsrc).
  - apply edges_map_image; try done.
    + apply suppress_zero.
    + intros i j _ _ _ _.
      rewrite (suppress_not_below 0); [done|].
      pose proof (gradient_nonneg (source a s) i j). lra.
Qed.

(** X4. At threshold 0 an interior cell of the output is 0 exactly when both
    row-major sums vanish there. *)
Theorem zero_iff_no_gradient (h : heap) img (a : image) s i j :
  h !! img = Some a → rectangular a →
  (1 ≤ i ≤ nrows a - 2)%nat → (1 ≤ j ≤ ncols a - 2)%nat →
  ∃ out,
    returned (prewitt_operator img 0 s h) = Some out
    ∧ (at2 out i j = Some 0
       ↔ conv prewitt_x (source a s) i j = 0
         ∧ conv prewitt_y (source a s) i j = 0).
Proof.
  intros Himg Ha Hi Hj.
  pose proof (rectangular_source a s Ha) as Hsrc.
  eexists. split.
  - exact (prewitt_operator_returned h img a 0 s Himg Hsrc).
  - rewrite (at2_edges_gradient _ 0 _ _ i j Hsrc) by lia.
    pose proof (gradient_nonneg (source a s) i j) as Hpos.
    rewrite (suppress_not_below 0) by lra.
    unfold gradient, G_mag.
    set (gx := conv prewitt_x (source a s) i j).
    set (gy := conv prewitt_y (source a s) i j).
    split.
    + intros [= Hz]. apply sqrt_eq_0 in Hz; nra.
    + intros [-> ->]. f_equal.
      replace (0 ^ 2 + 0 ^ 2) with 0 by ring. apply sqrt_0.
Qed.

(** X5. Smoothing is a step before the operator: the call with
    [smooth=True] returns what the call with [smooth=False] returns on the
    blurred image. *)
Theorem smoothing_is_precomposition (h : heap) img (a : image) t
    (h2 : heap) img2 :
  h !! img = Some a → rectangular a →
  h2 !! img2 = Some (GaussianBlur a) →
  ∃ out,
    returned (prewitt_operator img t true h) = Some out
    ∧ returned (prewitt_operator img2 t false h2) = Some out.
Proof.
  intros Himg Ha Himg2.
  pose proof (rectangular_source a true Ha) as Hsrc. simpl in Hsrc.
  eexists. split.
  - exact (prewitt_operator_returned h img a t true Himg Hsrc).
  - rewrite (prewitt_operator_returned h2 img2 (GaussianBlur a) t false Himg2).
    + simpl. destruct Hsrc as [Hr Hc].
      unfold nrows. rewrite Hr.
      destruct (decide (0 < nrows a)%nat) as [Hpos|Hzero].
      * by rewrite (has_shape_ncols (GaussianBlur a) (nrows a) (ncols a)).
      * destruct a; simpl in *; [|lia].
        by destruct (GaussianBlur []).
    + simpl. apply rectangular_has_shape.
      by apply (has_shape_rectangular _ (nrows a) (ncols a)).
Qed.

(** The sums read the eight neighbours only: the kernels are 0 at the
    centre. *)
Lemma conv_neighbours K (a b : image) i j :
  K = prewitt_x ∨ K = prewitt_y →
  (∀ u v, (u ≤ 2)%nat → (v ≤ 2)%nat → (u, v) ≠ (1%nat, 1%nat) →
     px a (i - 1 + u) (j - 1 + v) = px b (i - 1 + u) (j - 1 + v)) →
  conv K a i j = conv K b i j.
Proof.
  intros HK Hn. unfold conv, sum3. cbv beta.
  rewrite (Hn 0%nat 0%nat), (Hn 0%nat 1%nat), (Hn 0%nat 2%nat),
    (Hn 1%nat 0%nat), (Hn 1%nat 2%nat),
    (Hn 2%nat 0%nat), (Hn 2%nat 1%nat), (Hn 2%nat 2%nat)
    by (lia || congruence).
  destruct HK as [-> | ->]; unfold kern; simpl; ring.
Qed.

(** X6. The output at an interior pixel depends on the eight neighbours of
    the pixel only, not on the pixel itself nor on any sample further away:
    without smoothing, two images of one shape that agree on the eight
    neighbours of [(i, j)] give the same output at [(i, j)]. *)
Theorem output_reads_eight_neighbours (h1 h2 : heap) img1 img2
    (a b : image) t i j :
  h1 !! img1 = Some a → h2 !! img2 = Some b →
  rectangular a → rectangular b →
  nrows a = nrows b → ncols a = ncols b →
  (1 ≤ i ≤ nrows a - 2)%nat → (1 ≤ j ≤ ncols a - 2)%nat →
  (∀ u v, (u ≤ 2)%nat → (v ≤ 2)%nat → (u, v) ≠ (1%nat, 1%nat) →
     px a (i - 1 + u) (j - 1 + v) = px b (i - 1 + u) (j - 1 + v)) →
  ∃ out1 out2,
    returned (prewitt_operator img1 t false h1) = Some out1
    ∧ returned (prewitt_operator img2 t false h2) = Some out2
    ∧ at2 out1 i j = at2 out2 i j.
Proof.
  intros Himg1 Himg2 Ha%rectangular_has_shape Hb%rectangular_has_shape
    Hr Hc Hi Hj Hn.
  eexists _, _. split; [|split].
  - exact (prewitt_operator_returned h1 img1 a t false Himg1 Ha).
  - exact (prewitt_operator_returned h2 img2 b t false Himg2 Hb).
  - simpl. rewrite <- Hr, <- Hc in *.
    rewrite !at2_edges_gradient by (done || lia).
    unfold gradient.
    rewrite (conv_neighbours prewitt_x a b i j (or_introl eq_refl) Hn).
    by rewrite (conv_neighbours prewitt_y a b i j (or_intror eq_refl) Hn).
Qed.

(** ** Affine changes of the samples *)

Lemma px_map_image f (a : image) r c i j :
  has_shape a r c → (i < r)%nat → (j < c)%nat →
  px (map_image f a) i j = f (px a i j).
Proof.
  intros Ha Hi Hj. unfold px at 1. rewrite at2_map_image.
  by rewrite (at2_px a r c).
Qed.

(** The weights of each kernel sum to 0, so an offset cancels and a factor
    comes out. *)
Lemma conv_affine K k d (a : image) r c i j :
  K = prewitt_x ∨ K = prewitt_y →
  has_shape a r c →
  (1 ≤ i)%nat → (i + 1 < r)%nat → (1 ≤ j)%nat → (j + 1 < c)%nat →
  conv K (affine_image k d a) i j = k * conv K a i j.
Proof.
  intros HK Ha Hi1 Hi2 Hj1 Hj2. unfold conv, sum3, affine_image. cbv beta.
  rewrite !(px_map_image _ a r c) by (done || lia).
  destruct HK as [-> | ->]; unfold kern; simpl; ring.
Qed.

Lemma G_mag_scale k gx gy : G_mag (k * gx) (k * gy) = Rabs k * G_mag gx gy.
Proof.
  unfold G_mag.
  replace ((k * gx) ^ 2 + (k * gy) ^ 2) with (Rsqr k * (gx ^ 2 + gy ^ 2))
    by (unfold Rsqr; ring).
  rewrite sqrt_mult_alt by apply Rle_0_sqr.
  by rewrite sqrt_Rsqr_abs.
Qed.

Lemma gradient_affine k d (a : image) r c i j :
  has_shape a r c →
  (1 ≤ i)%nat → (i + 1 < r)%nat → (1 ≤ j)%nat → (j + 1 < c)%nat →
  gradient (affine_image k d a) i j = Rabs k * gradient a i j.
Proof.
  intros. unfold gradient.
  rewrite (conv_affine prewitt_x k d a r c i j (or_introl eq_refl)) by done.
  rewrite (conv_affine prewitt_y k d a r c i j (or_intror eq_refl)) by done.
  apply G_mag_scale.
Qed.

Lemma suppress_scale k t m :
  0 < k → suppress (k * t) (k * m) = k * suppress t m.
Proof.
  intros Hk. unfold suppress.
  destruct (Rlt_dec (k * m) (k * t)) as [Hlt|Hge], (Rlt_dec m t) as [Hlt'|Hge'];
    try lra.
  - apply Rmult_lt_reg_l in Hlt; [done|lra].
  - destruct Hge. by apply Rmult_lt_compat_l.
Qed.

Lemma map_image_id (a : image) : map_image (λ x, 1 * x) a = a.
Proof.
  unfold map_image. apply list_eq. intros i. rewrite list_lookup_fmap.
  destruct (a !! i) as [row|]; simpl; [|done]. f_equal.
  apply list_eq. intros j. rewrite list_lookup_fmap.
  destruct (row !! j) as [x|]; simpl; [|done]. f_equal. ring.
Qed.

(** The edge image of an affine change of the samples. *)
Lemma edges_affine k d (a : image) t r c :
  k ≠ 0 → has_shape a r c →
  edges (affine_image k d a) (Rabs k * t) r c
  = map_image (λ x, Rabs k * x) (edges a t r c).
Proof.
  intros Hk Ha. apply edges_map_image.
  - ring.
  - done.
  - by apply map_image_has_shape.
  - intros i j Hi1 Hi2 Hj1 Hj2.
    rewrite (gradient_affine k d a r c) by done.
    apply suppress_scale. by apply Rabs_pos_lt.
Qed.

Lemma affine_image_shape k d (a : image) :
  nrows (affine_image k d a) = nrows a
  ∧ ncols (affine_image k d a) = ncols a.
Proof.
  unfold affine_image, map_image, nrows. split.
  - apply length_fmap.
  - destruct a as [|row a]; simpl; [done|]. apply length_fmap.
Qed.

Lemma integer_image_affine k c (az : list (list Z)) :
  integer_image (affine_Z k c az)
  = affine_image (IZR k) (IZR c) (integer_image az).
Proof.
  unfold integer_image, affine_Z, affine_image, map_image.
  apply list_eq. intros i. rewrite !list_lookup_fmap.
  destruct (az !! i) as [row|]; simpl; [|done]. f_equal.
  apply list_eq. intros j. rewrite !list_lookup_fmap.
  destruct (row !! j) as [x|]; simpl; [|done].
  by rewrite plus_IZR, mult_IZR.
Qed.

(** An offset or an inversion of the samples leaves the edge image as it
    is. *)
Lemma edges_offset_inversion k c (a : image) t r0 c0 :
  k = 1 ∨ k = -1 → has_shape a r0 c0 →
  edges (affine_image k c a) t r0 c0 = edges a t r0 c0.
Proof.
  intros Hk Ha.
  assert (Rabs k = 1) as Habs.
  { destruct Hk as [-> | ->]; unfold Rabs; destruct (Rcase_abs _); lra. }
  replace t with (Rabs k * t) at 1 by (rewrite Habs; ring).
  rewrite edges_affine; [|destruct Hk; lra|done].
  rewrite Habs. apply map_image_id.
Qed.

(** X7. Without smoothing and on 8-bit samples, the output does not change
    when an integer constant is added to every sample, nor when the image is
    inverted ([c - z] for [z]): for [k] either 1 or -1, the image with
    samples [k * z + c], 8-bit too, has the edge image of the original, at
    the same threshold. *)
Theorem output_invariant_under_offset_and_inversion (h1 h2 : heap) img1 img2
    (az : list (list Z)) (k c : Z) t :
  h1 !! img1 = Some (integer_image az) →
  h2 !! img2 = Some (integer_image (affine_Z k c az)) →
  rectangular (integer_image az) →
  eight_bit az → eight_bit (affine_Z k c az) →
  k = 1%Z ∨ k = (-1)%Z →
  ∃ out,
    returned (prewitt_operator img1 t false h1) = Some out
    ∧ returned (prewitt_operator img2 t false h2) = Some out.
Proof.
  intros Himg1 Himg2 Ha%rectangular_has_shape _ _ Hk.
  rewrite integer_image_affine in Himg2.
  set (a := integer_image az) in *.
  pose proof (map_image_has_shape (λ x, IZR k * x + IZR c) a _ _ Ha) as Hb.
  fold (affine_image (IZR k) (IZR c) a) in Hb.
  destruct (affine_image_shape (IZR k) (IZR c) a) as [Hr Hc].
  eexists. split.
  - exact (prewitt_operator_returned h1 img1 a t false Himg1 Ha).
  - rewrite (prewitt_operator_returned h2 img2 _ t false Himg2);
      [|simpl; by rewrite Hr, Hc].
    simpl. rewrite Hr, Hc. f_equal.
    apply edges_offset_inversion; [|done].
    destruct Hk as [-> | ->]; [by left | by right].
Qed.

(** ** The range of the output *)

Lemma within_px lo hi (a : image) r c i j :
  within lo hi a → has_shape a r c → (i < r)%nat → (j < c)%nat →
  lo <= px a i j <= hi.
Proof.
  intros Hw Ha Hi Hj.
  pose proof (at2_px a r c i j Ha Hi Hj) as Hpx.
  unfold at2 in Hpx. destruct (a !! i) as [row|] eqn:Hrow; simpl in Hpx; [|done].
  pose proof (proj1 (Forall_lookup _ _) Hw i row Hrow) as Hroww.
  exact (proj1 (Forall_lookup _ _) Hroww j _ Hpx).
Qed.

(** Each sum is three differences of two samples. *)
Lemma within_conv K lo hi (a : image) r c i j :
  K = prewitt_x ∨ K = prewitt_y →
  within lo hi a → has_shape a r c →
  (1 ≤ i)%nat → (i + 1 < r)%nat → (1 ≤ j)%nat → (j + 1 < c)%nat →
  - (3 * (hi - lo)) <= conv K a i j <= 3 * (hi - lo).
Proof.
  intros HK Hw Ha Hi1 Hi2 Hj1 Hj2.
  assert (∀ u v, (u ≤ 2)%nat → (v ≤ 2)%nat →
            lo <= px a (i - 1 + u) (j - 1 + v) <= hi) as Hn.
  { intros u v Hu Hv. apply (within_px lo hi a r c); (done || lia). }
  pose proof (Hn 0%nat 0%nat ltac:(lia) ltac:(lia)).
  pose proof (Hn 0%nat 1%nat ltac:(lia) ltac:(lia)).
  pose proof (Hn 0%nat 2%nat ltac:(lia) ltac:(lia)).
  pose proof (Hn 1%nat 0%nat ltac:(lia) ltac:(lia)).
  pose proof (Hn 1%nat 2%nat ltac:(lia) ltac:(lia)).
  pose proof (Hn 2%nat 0%nat ltac:(lia) ltac:(lia)).
  pose proof (Hn 2%nat 1%nat ltac:(lia) ltac:(lia)).
  pose proof (Hn 2%nat 2%nat ltac:(lia) ltac:(lia)).
  unfold conv, sum3. cbv beta.
  destruct HK as [-> | ->]; unfold kern; simpl; lra.
Qed.

Lemma G_mag_bound d gx gy :
  - d <= gx <= d → - d <= gy <= d → G_mag gx gy <= d * sqrt 2.
Proof.
  intros Hgx Hgy. assert (0 <= d) as Hd by lra.
  unfold G_mag.
  replace (d * sqrt 2) with (sqrt (Rsqr d * 2)).
  - apply sqrt_le_1_alt. unfold Rsqr. nra.
  - rewrite sqrt_mult_alt by apply Rle_0_sqr.
    by rewrite sqrt_Rsqr.
Qed.

Lemma within_gradient lo hi (a : image) r c i j :
  within lo hi a → has_shape a r c →
  (1 ≤ i)%nat → (i + 1 < r)%nat → (1 ≤ j)%nat → (j + 1 < c)%nat →
  gradient a i j <= 3 * (hi - lo) * sqrt 2.
Proof.
  intros Hw Ha Hi1 Hi2 Hj1 Hj2. unfold gradient.
  apply G_mag_bound.
  - by apply (within_conv _ lo hi a r c i j (or_introl eq_refl)).
  - by apply (within_conv _ lo hi a r c i j (or_intror eq_refl)).
Qed.

(** X9. Without smoothing, when every sample of the input lies between [lo]
    and [hi], no sample of the output exceeds [3 * (hi - lo) * sqrt 2]. *)
Theorem output_upper_bound (h : heap) img (a : image) lo hi t :
  h !! img = Some a → rectangular a → within lo hi a →
  ∃ out,
    returned (prewitt_operator img t false h) = Some out
    ∧ ∀ i j v, at2 out i j = Some v → v <= 3 * (hi - lo) * sqrt 2.
Proof.
  intros Himg Ha%rectangular_has_shape Hw.
  eexists. split.
  - exact (prewitt_operator_returned h img a t false Himg Ha).
  - intros i j v Hv. simpl in Hv.
    destruct (at2_edges_inv _ _ _ _ i j v Ha Hv)
      as (Hi & Hj & [-> | (? & ? & ? & ? & ->)]).
    + pose proof (within_px lo hi a _ _ i j Hw Ha Hi Hj).
      pose proof (sqrt_pos 2). nra.
    + pose proof (within_gradient lo hi a _ _ i j Hw Ha) as Hg.
      pose proof (gradient_nonneg a i j).
      pose proof (suppress_le t (gradient a i j)).
      specialize (Hg ltac:(done) ltac:(done) ltac:(done) ltac:(done)). lra.
Qed.

(** X10. Without smoothing, a threshold above [3 * (hi - lo) * sqrt 2]
    blanks the image: the output is the all-zero array. *)
Theorem threshold_above_range_blanks (h : heap) img (a : image) lo hi t :
  h !! img = Some a → rectangular a → within lo hi a →
  3 * (hi - lo) * sqrt 2 < t →
  returned (prewitt_operator img t false h)
  = Some (zeros (nrows a) (ncols a)).
Proof.
  intros Himg Ha%rectangular_has_shape Hw Ht.
  rewrite (prewitt_operator_returned h img a t false Himg Ha). simpl. f_equal.
  apply (image_ext _ _ (nrows a) (ncols a));
    [apply edges_has_shape | apply zeros_has_shape |].
  intros i j Hi Hj. rewrite at2_zeros by done.
  destruct (at2_is_Some _ _ _ i j (edges_has_shape a t (nrows a) (ncols a)) Hi Hj)
    as [v Hv].
  rewrite Hv. f_equal.
  destruct (at2_edges_inv _ _ _ _ i j v Ha Hv)
    as (_ & _ & [-> | (? & ? & ? & ? & ->)]); [done|].
  apply suppress_below.
  pose proof (within_gradient lo hi a _ _ i j Hw Ha) as Hg.
  specialize (Hg ltac:(done) ltac:(done) ltac:(done) ltac:(done)). lra.
Qed.

(** ** Transposition *)

Lemma transpose_image_has_shape (a : image) :
  has_shape (transpose_image a) (ncols a) (nrows a).
Proof.
  unfold transpose_image. split.
  - by rewrite length_fmap, length_seq.
  - apply Forall_fmap, Forall_forall. intros j _. simpl.
    by rewrite length_fmap.
Qed.

Lemma transpose_image_no_columns (a : image) :
  ncols a = 0%nat → transpose_image a = [].
Proof. intros Hc. unfold transpose_image. by rewrite Hc. Qed.

Lemma at2_transpose_image (a : image) r c i j :
  has_shape a r c → (i < r)%nat → (j < c)%nat →
  at2 (transpose_image a) j i = at2 a i j.
Proof.
  intros Ha Hi Hj.
  rewrite (at2_px a r c i j Ha Hi Hj).
  pose proof (at2_px a r c i j Ha Hi Hj) as Hpx. unfold at2 in Hpx.
  unfold at2 at 1. unfold transpose_image.
  rewrite list_lookup_fmap.
  rewrite (has_shape_ncols a r c Ha) by lia.
  rewrite lookup_seq_lt by done. simpl.
  rewrite list_lookup_fmap.
  destruct (a !! i) as [row|]; simpl in *; [|done].
  by rewrite Hpx.
Qed.

Lemma px_transpose_image (a : image) r c i j :
  has_shape a r c → (i < r)%nat → (j < c)%nat →
  px (transpose_image a) j i = px a i j.
Proof.
  intros Ha Hi Hj. unfold px. by rewrite (at2_transpose_image a r c).
Qed.

(** A sum over the transposed image is the transposed sum over the image. *)
Lemma conv_transpose_image K (a : image) r c i j :
  has_shape a r c →
  (1 ≤ i)%nat → (i + 1 < r)%nat → (1 ≤ j)%nat → (j + 1 < c)%nat →
  conv K (transpose_image a) j i = conv_transposed K a i j.
Proof.
  intros Ha Hi1 Hi2 Hj1 Hj2. unfold conv, conv_transposed, sum3. cbv beta.
  by rewrite !(px_transpose_image a r c) by (done || lia).
Qed.

Lemma gradient_transpose_image (a : image) r c i j :
  has_shape a r c →
  (1 ≤ i)%nat → (i + 1 < r)%nat → (1 ≤ j)%nat → (j + 1 < c)%nat →
  gradient (transpose_image a) j i = gradient a i j.
Proof.
  intros. unfold gradient.
  rewrite !(conv_transpose_image _ a r c) by done.
  rewrite !conv_transposed_transpose3.
  rewrite transpose3_prewitt_x, transpose3_prewitt_y.
  apply G_mag_comm.
Qed.

Lemma edges_transpose_image (a : image) t r c :
  has_shape a r c → (0 < r)%nat → (0 < c)%nat →
  edges (transpose_image a) t c r = transpose_image (edges a t r c).
Proof.
  intros Ha Hr Hc.
  pose proof (edges_has_shape a t r c) as He.
  pose proof (transpose_image_has_shape a) as Hta.
  pose proof (transpose_image_has_shape (edges a t r c)) as Hte.
  rewrite (has_shape_ncols a r c Ha Hr) in Hta.
  rewrite (has_shape_ncols _ r c He Hr) in Hte.
  unfold nrows in Hta, Hte. rewrite (proj1 Ha) in Hta. rewrite (proj1 He) in Hte.
  apply (image_ext _ _ c r); [apply edges_has_shape | done |].
  intros j i Hj Hi.
  rewrite (at2_transpose_image _ r c i j He Hi Hj).
  destruct (decide ((1 ≤ i)%nat ∧ (i + 1 < r)%nat
                    ∧ (1 ≤ j)%nat ∧ (j + 1 < c)%nat)) as [Hin|Hb].
  - destruct Hin as (? & ? & ? & ?).
    rewrite !at2_edges_gradient by done.
    by rewrite (gradient_transpose_image a r c).
  - rewrite !at2_edges_border by lia. done.
Qed.

(** The call on a transposed image, in exact arithmetic. *)
Lemma returned_of_transposed (h1 h2 : heap) img1 img2 (a : image) t :
  h1 !! img1 = Some a → h2 !! img2 = Some (transpose_image a) →
  rectangular a →
  ∃ out,
    returned (prewitt_operator img1 t false h1) = Some out
    ∧ returned (prewitt_operator img2 t false h2)
      = Some (transpose_image out).
Proof.
  intros Himg1 Himg2 Ha%rectangular_has_shape.
  pose proof (transpose_image_has_shape a) as Hta.
  eexists. split.
  - exact (prewitt_operator_returned h1 img1 a t false Himg1 Ha).
  - rewrite (prewitt_operator_returned h2 img2 _ t false Himg2);
      [|apply rectangular_has_shape;
        by apply (has_shape_rectangular _ (ncols a) (nrows a))].
    simpl. f_equal.
    destruct (decide (0 < nrows a)%nat) as [Hr|Hr];
      [destruct (decide (0 < ncols a)%nat) as [Hc|Hc]|].
    + rewrite (has_shape_ncols _ _ _ Hta Hc).
      unfold nrows at 1. rewrite (proj1 Hta).
      by apply edges_transpose_image.
    + assert (ncols a = 0%nat) as Hc0 by lia.
      rewrite (edges_small a t (nrows a) (ncols a)) by lia.
      rewrite (transpose_image_no_columns a Hc0).
      rewrite Hc0, transpose_image_no_columns; [reflexivity|].
      by destruct (nrows a).
    + destruct a as [|row a]; simpl in *; [reflexivity | lia].
Qed.

(** X11. Without smoothing and on 8-bit samples, the operator commutes
    with transposition: the edge image of the transposed image is the
    transposed edge image. *)
Theorem output_of_transposed_image (h1 h2 : heap) img1 img2
    (az : list (list Z)) t :
  h1 !! img1 = Some (integer_image az) →
  h2 !! img2 = Some (transpose_image (integer_image az)) →
  rectangular (integer_image az) → eight_bit az →
  ∃ out,
    returned (prewitt_operator img1 t false h1) = Some out
    ∧ returned (prewitt_operator img2 t false h2)
      = Some (transpose_image out).
Proof.
  intros Himg1 Himg2 Ha _.
  exact (returned_of_transposed h1 h2 img1 img2 _ t Himg1 Himg2 Ha).
Qed.

(** ** Images that vary along one axis *)

Lemma replicate_rectangular r (row : list R) : rectangular (replicate r row).
Proof.
  apply (has_shape_rectangular _ r (length row)). split.
  - apply length_replicate.
  - by apply Forall_replicate.
Qed.

Lemma px_replicate r (row : list R) i j :
  (i < r)%nat → px (replicate r row) i j = default 0 (row !! j).
Proof.
  intros Hi. unfold px, at2. by rewrite lookup_replicate_2.
Qed.

(** The gradient on equal rows, in exact arithmetic. *)
Lemma gradient_equal_rows r (row : list R) i j :
  (1 ≤ i)%nat → (i + 1 < r)%nat → (1 ≤ j)%nat →
  gradient (replicate r row) i j
  = 3 * Rabs (default 0 (row !! (j - 1)%nat) - default 0 (row !! (j + 1)%nat)).
Proof.
  intros Hi1 Hi2 Hj1. unfold gradient, conv, sum3. cbv beta.
  rewrite !px_replicate by lia.
  unfold kern. simpl.
  rewrite !Nat.add_0_r.
  replace (j - 1 + 2)%nat with (j + 1)%nat by lia.
  set (p := default 0 (row !! (j - 1)%nat)).
  set (q := default 0 (row !! (j + 1)%nat)).
  set (m := default 0 (row !! (j - 1 + 1)%nat)).
  unfold G_mag.
  replace (_ + _) with (Rsqr (3 * (p - q))) by (unfold Rsqr; ring).
  rewrite sqrt_Rsqr_abs, Rabs_mult.
  by rewrite (Rabs_pos_eq 3) by lra.
Qed.

Lemma default_lookup_IZR (row : list Z) j :
  default 0 ((IZR <$> row) !! j) = IZR (default 0%Z (row !! j)).
Proof. rewrite list_lookup_fmap. by destruct (row !! j). Qed.

(** X12. Without smoothing, on an image whose rows are all the same list
    [row] of 8-bit samples, the output at an interior pixel is three times
    the absolute difference of the samples to its left and to its right,
    thresholded: 0 where the profile is flat, and three times the step
    height next to a step. *)
Theorem output_on_equal_rows (h : heap) img r (row : list Z) t i j :
  h !! img = Some (integer_image (replicate r row)) →
  Forall (λ z, 0 ≤ z ≤ 255)%Z row →
  (1 ≤ i ≤ r - 2)%nat → (1 ≤ j ≤ length row - 2)%nat →
  ∃ out,
    returned (prewitt_operator img t false h) = Some out
    ∧ at2 out i j
      = Some (suppress t (IZR (3 * Z.abs (default 0%Z (row !! (j - 1)%nat)
                                          - default 0%Z (row !! (j + 1)%nat))))).
Proof.
  intros Himg _ Hi Hj.
  assert (integer_image (replicate r row) = replicate r (IZR <$> row)) as Himage.
  { unfold integer_image. apply fmap_replicate. }
  rewrite Himage in Himg.
  pose proof (rectangular_has_shape _ (replicate_rectangular r (IZR <$> row)))
    as Ha.
  assert (nrows (replicate r (IZR <$> row)) = r) as Hr by apply length_replicate.
  assert (ncols (replicate r (IZR <$> row)) = length row) as Hc.
  { destruct r; [lia|]. simpl. apply length_fmap. }
  eexists. split.
  - exact (prewitt_operator_returned h img _ t false Himg Ha).
  - simpl. rewrite Hr, Hc in *.
    rewrite at2_edges_gradient by (done || lia).
    do 2 f_equal.
    rewrite gradient_equal_rows by lia.
    rewrite !default_lookup_IZR.
    by rewrite mult_IZR, abs_IZR, minus_IZR.
Qed.

(** ** The store after a call *)

(** X13. Without smoothing the call changes the store in one way only: it
    adds the output array under a name the store did not hold. Nothing is
    removed and nothing else is written. *)
Theorem unsmoothed_call_only_adds_output (h : heap) img (a : image) t :
  h !! img = Some a → rectangular a →
  ∃ out o,
    prewitt_operator img t false h = Ok (out, <[out := o]> h)
    ∧ h !! out = None.
Proof.
  intros Himg Ha%rectangular_has_shape.
  set (out := fresh (dom h)).
  assert (h !! out = None) as Hfresh.
  { apply not_elem_of_dom. apply is_fresh. }
  assert (img ≠ out) as Hne by (intros ->; congruence).
  exists out, (edges a t (nrows a) (ncols a)). split; [|done].
  unfold prewitt_operator, shape, np_zeros, alloc, bind, load, ret.
  rewrite Himg. simpl. fold out.
  rewrite (loops_run img out t _ a (nrows a) (ncols a)); try done.
  - by rewrite insert_insert_eq.
  - by rewrite lookup_insert_ne.
  - by rewrite lookup_insert_eq.
Qed.

End Prewitt.

(** ** The claims at sample inputs *)

Lemma no_blur_shape (a : image) r c : has_shape a r c → has_shape (no_blur a) r c.
Proof. intros Ha. exact Ha. Defined.

Lemma sample_heap_lookup : sample_heap !! 1%positive = Some sample_image.
Proof. apply lookup_singleton_eq. Defined.

Lemma sample_image_rectangular : rectangular sample_image.
Proof. repeat constructor. Defined.

Lemma C1_interior_gradient_magnitude_witness :
  ∃ out,
    returned (prewitt_operator no_blur 1%positive 0 false sample_heap) = Some out
    ∧ let Gx := conv prewitt_x sample_image 1 1 in
      let Gy := conv prewitt_y sample_image 1 1 in
      let Gmag := sqrt (Gx ^ 2 + Gy ^ 2) in
      at2 out 1 1 = Some (if Rlt_dec Gmag 0 then 0 else Gmag).
Proof.
  apply (C1_interior_gradient_magnitude no_blur sample_heap 1%positive
           sample_image 0 1 1).
  - exact sample_heap_lookup.
  - exact sample_image_rectangular.
  - simpl. lia.
  - simpl. lia.
  - lra.
  - simpl. lia.
  - simpl. lia.
Defined.

Lemma C3_border_is_zero_witness :
  ∃ out,
    returned (prewitt_operator no_blur 1%positive 40 true sample_heap) = Some out
    ∧ at2 out 0 2 = Some 0.
Proof.
  apply (C3_border_is_zero no_blur no_blur_shape sample_heap 1%positive
           sample_image 40 true 0 2).
  - exact sample_heap_lookup.
  - exact sample_image_rectangular.
  - lra.
  - simpl. lia.
  - simpl. lia.
  - left. reflexivity.
Defined.

Lemma small_image_rectangular : rectangular small_image.
Proof. repeat constructor. Defined.

Lemma C4_degenerate_input_all_zero_witness :
  ∃ out h',
    prewitt_operator no_blur 1%positive 40 true {[ 1%positive := small_image ]}
    = Ok (out, h')
    ∧ h' !! out = Some (zeros 2 2)
    ∧ has_shape (zeros 2 2) 2 2.
Proof.
  apply (C4_degenerate_input_all_zero no_blur no_blur_shape
           {[ 1%positive := small_image ]} 1%positive small_image 40 true).
  - apply lookup_singleton_eq.
  - exact small_image_rectangular.
  - lra.
  - left. simpl. lia.
Defined.

Lemma C7_output_dimensions_witness :
  ∃ out,
    returned (prewitt_operator no_blur 1%positive 40 true sample_heap) = Some out
    ∧ nrows out = 3%nat
    ∧ ncols out = 3%nat
    ∧ rectangular out.
Proof.
  apply (C7_output_dimensions no_blur no_blur_shape sample_heap 1%positive
           sample_image 40 true).
  - exact sample_heap_lookup.
  - exact sample_image_rectangular.
Defined.

Lemma C2_negative_threshold_returns_witness :
  ∃ out h' o,
    prewitt_operator no_blur 1%positive (-1) false step_heap = Ok (out, h')
    ∧ h' !! out = Some o
    ∧ has_shape o 3 3
    ∧ ∀ i j, (1 ≤ i ≤ 3 - 2)%nat → (1 ≤ j ≤ 3 - 2)%nat →
        at2 o i j
        = Some (sqrt (conv prewitt_x step_image i j ^ 2
                      + conv prewitt_y step_image i j ^ 2)).
Proof.
  apply (C2_negative_threshold_returns no_blur no_blur_shape step_heap
           1%positive step_image (-1) false).
  - apply lookup_singleton_eq.
  - repeat constructor.
  - lra.
Defined.

Lemma C5_threshold_monotone_witness :
  ∃ out1 out2,
    returned (prewitt_operator no_blur 1%positive 10 false sample_heap) = Some out1
    ∧ returned (prewitt_operator no_blur 1%positive 40 false sample_heap) = Some out2
    ∧ ∀ i j, at2 out1 i j = Some 0 → at2 out2 i j = Some 0.
Proof.
  apply (C5_threshold_monotone no_blur no_blur_shape sample_heap 1%positive
           sample_image false 10 40).
  - exact sample_heap_lookup.
  - exact sample_image_rectangular.
  - lra.
Defined.

Lemma C6_threshold_is_strict_witness :
  ∃ out,
    returned (prewitt_operator no_blur 1%positive 0 false sample_heap) = Some out
    ∧ let Gmag := sqrt (conv prewitt_x sample_image 1 1 ^ 2
                        + conv prewitt_y sample_image 1 1 ^ 2) in
      (Gmag < 0 → at2 out 1 1 = Some 0)
      ∧ (¬ Gmag < 0 → at2 out 1 1 = Some Gmag)
      ∧ (Gmag = 0 → at2 out 1 1 = Some Gmag)
      ∧ (0 = 0 → at2 out 1 1 = Some Gmag).
Proof.
  apply (C6_threshold_is_strict no_blur no_blur_shape sample_heap 1%positive
           sample_image 0 false 1 1).
  - exact sample_heap_lookup.
  - exact sample_image_rectangular.
  - simpl. lia.
  - simpl. lia.
Defined.



Lemma C9_neighbourhood_is_transposed_witness :
  ∃ gx gy,
    G_x sample_image 1 1 = Some gx ∧ G_y sample_image 1 1 = Some gy
    ∧ gx = conv_transposed prewitt_x sample_image 1 1
    ∧ gy = conv_transposed prewitt_y sample_image 1 1
    ∧ gx = conv prewitt_y sample_image 1 1
    ∧ gy = conv prewitt_x sample_image 1 1
    ∧ transpose3 prewitt_x = prewitt_y
    ∧ sqrt (gx ^ 2 + gy ^ 2)
      = sqrt (conv prewitt_x sample_image 1 1 ^ 2
              + conv prewitt_y sample_image 1 1 ^ 2).
Proof.
  apply (C9_neighbourhood_is_transposed sample_image 1 1).
  - exact sample_image_rectangular.
  - simpl. lia.
  - simpl. lia.
Defined.

Lemma C10_input_untouched_and_deterministic_witness :
  ∃ out h',
    prewitt_operator no_blur 1%positive 40 true sample_heap = Ok (out, h')
    ∧ out ≠ 1%positive
    ∧ h' !! 1%positive = Some sample_image
    ∧ (∀ l, is_Some (sample_heap !! l) → h' !! l = sample_heap !! l)
    ∧ (∀ (h2 : heap) img2, h2 !! img2 = Some sample_image →
         returned (prewitt_operator no_blur img2 40 true h2) = h' !! out).
Proof.
  apply (C10_input_untouched_and_deterministic no_blur no_blur_shape
           sample_heap 1%positive sample_image 40 true).
  - exact sample_heap_lookup.
  - exact sample_image_rectangular.
Defined.

(** ** Evaluations *)

(** The sums of the source on the sample image: top row minus bottom row,
    and left column minus right column. *)
Example G_x_sample_image : G_x sample_image 1 1 = Some (-19).
Proof. unfold G_x, G, at2, kern. simpl. f_equal. lra. Qed.

Example G_y_sample_image : G_y sample_image 1 1 = Some (-7).
Proof. unfold G_y, G, at2, kern. simpl. f_equal. lra. Qed.

(** The row-major sums are the other way round. *)
Example conv_prewitt_x_sample_image : conv prewitt_x sample_image 1 1 = -7.
Proof. unfold conv, sum3, kern, px, at2. simpl. lra. Qed.

Example conv_prewitt_y_sample_image : conv prewitt_y sample_image 1 1 = -19.
Proof. unfold conv, sum3, kern, px, at2. simpl. lra. Qed.

Example conv_prewitt_x_step_image : conv prewitt_x step_image 1 1 = 0.
Proof. unfold conv, sum3, kern, px, at2. simpl. lra. Qed.

Example conv_prewitt_y_step_image : conv prewitt_y step_image 1 1 = -3.
Proof. unfold conv, sum3, kern, px, at2. simpl. lra. Qed.

Example G_mag_step_image :
  G_mag (conv prewitt_x step_image 1 1) (conv prewitt_y step_image 1 1) = 3.
Proof.
  rewrite conv_prewitt_x_step_image, conv_prewitt_y_step_image.
  unfold G_mag. replace (0 ^ 2 + (-3) ^ 2) with (3 * 3) by ring.
  apply sqrt_square. lra.
Qed.

(** The edge image of the step image under the threshold -1. *)
Lemma edges_step_image :
  edges step_image (-1) 3 3 = [[0; 0; 0]; [0; 3; 0]; [0; 0; 0]].
Proof.
  assert (has_shape step_image 3 3) as Hshape.
  { split; [reflexivity | repeat constructor]. }
  apply (image_ext _ _ 3 3).
  - apply edges_has_shape.
  - split; [reflexivity | repeat constructor].
  - intros i j Hi Hj.
    destruct (decide (i = 1 ∧ j = 1)%nat) as [[-> ->]|Hb].
    + rewrite (at2_edges_interior _ _ 3 3) by (done || lia).
      rewrite G_mag_step_image.
      rewrite suppress_not_below by lra. reflexivity.
    + rewrite at2_edges_border by lia.
      destruct i as [|[|[|i]]]; destruct j as [|[|[|j]]];
        (reflexivity || lia).
Qed.

(** C2, counterexample. The threshold -1 on the step image raises nothing:
    the call returns, and the interior pixel has been computed. *)
Lemma C2_counterexample :
  -1 < 0
  ∧ (∀ e, prewitt_operator no_blur 1%positive (-1) false step_heap ≠ Raise e)
  ∧ returned (prewitt_operator no_blur 1%positive (-1) false step_heap)
    = Some [[0; 0; 0]; [0; 3; 0]; [0; 0; 0]].
Proof.
  assert (has_shape step_image 3 3) as Hshape.
  { split; [reflexivity | repeat constructor]. }
  destruct (prewitt_operator_run no_blur step_heap 1%positive step_image (-1)
              false (lookup_singleton_eq _ _) Hshape)
    as (out & h' & Hrun & _ & Hout & _).
  split; [lra|]. split.
  - intros e. rewrite Hrun. discriminate.
  - rewrite Hrun. simpl. rewrite Hout. f_equal. exact edges_step_image.
Qed.

(** The error paths of the model are live. A name that holds no array: *)
Example unbound_name_raises :
  prewitt_operator no_blur 5%positive 40 true sample_heap = Raise NameError.
Proof. reflexivity. Qed.

(** A blur that does not keep the shape sends the reads out of bounds, so
    [GaussianBlur_shape] is needed: *)
Example shrinking_blur_raises :
  prewitt_operator shrinking_blur 1%positive 40 true sample_heap
  = Raise IndexError.
Proof. reflexivity. Qed.

(** And so does a list of rows that is not rectangular: *)
Example ragged_image_raises :
  prewitt_operator no_blur 1%positive 40 false {[ 1%positive := ragged_image ]}
  = Raise IndexError.
Proof. reflexivity. Qed.

(** The call on the sample image, evaluated: the store it leaves holds the
    input at 1 and the output at the new location 2. *)
Example sample_call_evaluated :
  prewitt_operator no_blur 1%positive 40 false sample_heap
  = Ok (2%positive,
        <[ 2%positive :=
             [[0; 0; 0];
              [0; suppress 40 (G_mag (1 * 1 + 4 * 0 + 7 * -1
                                     + 2 * 1 + 5 * 0 + 8 * -1
                                     + 3 * 1 + 6 * 0 + 10 * -1)
                                    (1 * 1 + 4 * 1 + 7 * 1
                                     + 2 * 0 + 5 * 0 + 8 * 0
                                     + 3 * -1 + 6 * -1 + 10 * -1)); 0];
              [0; 0; 0]] ]> sample_heap).
Proof. reflexivity. Qed.

(** ** The further properties at sample inputs *)

Lemma output_nonnegative_witness :
  ∃ out,
    returned (prewitt_operator no_blur 1%positive 40 true sample_heap) = Some out
    ∧ ∀ i j v, at2 out i j = Some v → 0 <= v.
Proof.
  apply (output_nonnegative no_blur no_blur_shape sample_heap 1%positive
           sample_image 40 true).
  - exact sample_heap_lookup.
  - exact sample_image_rectangular.
Defined.

Lemma output_zero_or_above_threshold_witness :
  ∃ out,
    returned (prewitt_operator no_blur 1%positive 40 true sample_heap) = Some out
    ∧ ∀ i j v, at2 out i j = Some v → v = 0 ∨ 40 <= v.
Proof.
  apply (output_zero_or_above_threshold no_blur no_blur_shape sample_heap
           1%positive sample_image 40 true).
  - exact sample_heap_lookup.
  - exact sample_image_rectangular.
Defined.

Lemma threshold_after_operator_witness :
  ∃ out0 out,
    returned (prewitt_operator no_blur 1%positive 0 false sample_heap) = Some out0
    ∧ returned (prewitt_operator no_blur 1%positive 40 false sample_heap) = Some out
    ∧ out = map_image (suppress 40) out0.
Proof.
  apply (threshold_after_operator no_blur no_blur_shape sample_heap
           1%positive sample_image 40 false).
  - exact sample_heap_lookup.
  - exact sample_image_rectangular.
Defined.

Lemma zero_iff_no_gradient_witness :
  ∃ out,
    returned (prewitt_operator no_blur 1%positive 0 false sample_heap) = Some out
    ∧ (at2 out 1 1 = Some 0
       ↔ conv prewitt_x sample_image 1 1 = 0
         ∧ conv prewitt_y sample_image 1 1 = 0).
Proof.
  apply (zero_iff_no_gradient no_blur no_blur_shape sample_heap 1%positive
           sample_image false 1 1).
  - exact sample_heap_lookup.
  - exact sample_image_rectangular.
  - simpl. lia.
  - simpl. lia.
Defined.

Lemma smoothing_is_precomposition_witness :
  ∃ out,
    returned (prewitt_operator no_blur 1%positive 40 true sample_heap) = Some out
    ∧ returned (prewitt_operator no_blur 1%positive 40 false sample_heap)
      = Some out.
Proof.
  apply (smoothing_is_precomposition no_blur no_blur_shape sample_heap
           1%positive sample_image 40 sample_heap 1%positive).
  - exact sample_heap_lookup.
  - exact sample_image_rectangular.
  - exact sample_heap_lookup.
Defined.

Lemma output_reads_eight_neighbours_witness :
  ∃ out1 out2,
    returned (prewitt_operator no_blur 1%positive 40 false sample_heap) = Some out1
    ∧ returned (prewitt_operator no_blur 1%positive 40 false
                  {[ 1%positive := sample_image_recentred ]}) = Some out2
    ∧ at2 out1 1 1 = at2 out2 1 1.
Proof.
  apply (output_reads_eight_neighbours no_blur sample_heap
           {[ 1%positive := sample_image_recentred ]} 1%positive 1%positive
           sample_image sample_image_recentred 40 1 1).
  - exact sample_heap_lookup.
  - apply lookup_singleton_eq.
  - exact sample_image_rectangular.
  - repeat constructor.
  - reflexivity.
  - reflexivity.
  - simpl. lia.
  - simpl. lia.
  - intros u v Hu Hv Hne.
    destruct u as [|[|[|u]]]; [| | |lia];
      (destruct v as [|[|[|v]]]; [| | |lia]);
      (reflexivity || (exfalso; apply Hne; reflexivity)).
Defined.

Lemma sample_integers_rectangular : rectangular (integer_image sample_integers).
Proof. repeat constructor. Defined.

Lemma sample_integers_eight_bit : eight_bit sample_integers.
Proof. repeat constructor; lia. Defined.

Lemma output_invariant_under_offset_and_inversion_witness :
  ∃ out,
    returned (prewitt_operator no_blur 1%positive 40 false
                {[ 1%positive := integer_image sample_integers ]}) = Some out
    ∧ returned (prewitt_operator no_blur 1%positive 40 false
                  {[ 1%positive
                     := integer_image (affine_Z (-1) 255 sample_integers) ]})
      = Some out.
Proof.
  apply (output_invariant_under_offset_and_inversion no_blur
           {[ 1%positive := integer_image sample_integers ]}
           {[ 1%positive := integer_image (affine_Z (-1) 255 sample_integers) ]}
           1%positive 1%positive sample_integers (-1) 255 40).
  - apply lookup_singleton_eq.
  - apply lookup_singleton_eq.
  - exact sample_integers_rectangular.
  - exact sample_integers_eight_bit.
  - repeat constructor; lia.
  - right. reflexivity.
Defined.

Lemma sample_image_within : within 0 255 sample_image.
Proof. repeat constructor; lra. Defined.

Lemma output_upper_bound_witness :
  ∃ out,
    returned (prewitt_operator no_blur 1%positive 40 false sample_heap) = Some out
    ∧ ∀ i j v, at2 out i j = Some v → v <= 3 * (255 - 0) * sqrt 2.
Proof.
  apply (output_upper_bound no_blur sample_heap 1%positive sample_image
           0 255 40).
  - exact sample_heap_lookup.
  - exact sample_image_rectangular.
  - exact sample_image_within.
Defined.

Lemma sqrt_2_le_2 : sqrt 2 <= 2.
Proof.
  rewrite <- (sqrt_square 2) at 2 by lra.
  apply sqrt_le_1_alt. lra.
Defined.

Lemma threshold_above_range_blanks_witness :
  returned (prewitt_operator no_blur 1%positive 2000 false sample_heap)
  = Some (zeros 3 3).
Proof.
  apply (threshold_above_range_blanks no_blur sample_heap 1%positive
           sample_image 0 255 2000).
  - exact sample_heap_lookup.
  - exact sample_image_rectangular.
  - exact sample_image_within.
  - pose proof sqrt_2_le_2. lra.
Defined.

Lemma output_of_transposed_image_witness :
  ∃ out,
    returned (prewitt_operator no_blur 1%positive 40 false
                {[ 1%positive := integer_image sample_integers ]}) = Some out
    ∧ returned (prewitt_operator no_blur 1%positive 40 false
                  {[ 1%positive
                     := transpose_image (integer_image sample_integers) ]})
      = Some (transpose_image out).
Proof.
  apply (output_of_transposed_image no_blur
           {[ 1%positive := integer_image sample_integers ]}
           {[ 1%positive := transpose_image (integer_image sample_integers) ]}
           1%positive 1%positive sample_integers 40).
  - apply lookup_singleton_eq.
  - apply lookup_singleton_eq.
  - exact sample_integers_rectangular.
  - exact sample_integers_eight_bit.
Defined.

Lemma output_on_equal_rows_witness :
  ∃ out,
    returned (prewitt_operator no_blur 1%positive 40 false
                {[ 1%positive := integer_image (replicate 3 step_row) ]})
    = Some out
    ∧ at2 out 1 1
      = Some (suppress 40
                (IZR (3 * Z.abs (default 0%Z (step_row !! (1 - 1)%nat)
                                 - default 0%Z (step_row !! (1 + 1)%nat))))).
Proof.
  apply (output_on_equal_rows no_blur
           {[ 1%positive := integer_image (replicate 3 step_row) ]}
           1%positive 3 step_row 40 1 1).
  - apply lookup_singleton_eq.
  - repeat constructor; lia.
  - lia.
  - simpl. lia.
Defined.

Lemma unsmoothed_call_only_adds_output_witness :
  ∃ out o,
    prewitt_operator no_blur 1%positive 40 false sample_heap
    = Ok (out, <[out := o]> sample_heap)
    ∧ sample_heap !! out = None.
Proof.
  apply (unsmoothed_call_only_adds_output no_blur sample_heap 1%positive
           sample_image 40).
  - exact sample_heap_lookup.
  - exact sample_image_rectangular.
Defined.

(** ** Evaluations in binary64 *)

(** On integer samples the binary64 sums are exact: the uniform image of 7
    gives the all-zero output. *)
Example b64_uniform_integer_image :
  B64.G_y B64.seven_image 1 1 = Some PrimFloat.zero
  ∧ B64.prewitt_operator (λ a, a) B64.seven_image PrimFloat.zero false
    = Some (B64.zeros 3 3).
Proof. split; vm_compute; reflexivity. Qed.

(** On the sample image the binary64 sums are the exact ones, -19 and -7,
    and the stored magnitude is the rounded square root of 410. *)
Example b64_sample_image :
  B64.G_x B64.sample_image 1 1 = Some (B64.of_Z (-19))
  ∧ B64.G_y B64.sample_image 1 1 = Some (B64.of_Z (-7))
  ∧ B64.prewitt_operator (λ a, a) B64.sample_image PrimFloat.zero false
    = Some [[PrimFloat.zero; PrimFloat.zero; PrimFloat.zero];
            [PrimFloat.zero; PrimFloat.sqrt (B64.of_Z 410); PrimFloat.zero];
            [PrimFloat.zero; PrimFloat.zero; PrimFloat.zero]].
Proof. repeat split; vm_compute; reflexivity. Qed.

